(** * imputecalls: run segmentation and call generation

    A shallow embedding of [src/imputecalls.py].  Positions of one vehicle
    are read from a database cursor, cut into runs ([filter_positions]) and
    each run is turned into stop calls by interpolation and a bounded
    extrapolation ([generate_calls]).

    Python exceptions are values of [exn]; a computation that may raise
    returns a [result].  The numeric library (numpy) and the datetime
    conversions are external to the repository: [generate_calls] is
    written over a [Kernel] that supplies them, and [Exact.kernel] is the
    instance computing with exact rationals. *)

From Stdlib Require Import String Ascii DecimalString.
From Stdlib Require Import ZArith QArith Qround Lqa Bool Lia List Sorted.
Import ListNotations.

Set Implicit Arguments.
Open Scope Z_scope.

(** ** Exceptions *)

Inductive exn : Type :=
| IndexError
| AttributeError
| ValueError
| TypeError
| OverflowError
| LinAlgError.

Inductive result (A : Type) : Type :=
| Ok (a : A)
| Raise (e : exn).

Arguments Ok {A} a.
Arguments Raise {A} e.

Definition bind {A B} (r : result A) (k : A -> result B) : result B :=
  match r with
  | Ok a => k a
  | Raise e => Raise e
  end.

Notation "x <- r ;; k" := (bind r (fun x => k))
  (at level 61, r at next level, right associativity).

Definition fmap {A B} (f : A -> B) (r : result A) : result B :=
  match r with
  | Ok a => Ok (f a)
  | Raise e => Raise e
  end.

(** [[f(x) for x in xs]] where [f] may raise: the first exception wins. *)
Fixpoint mapM {A B} (f : A -> result B) (xs : list A) : result (list B) :=
  match xs with
  | [] => Ok []
  | x :: xs' => y <- f x ;; ys <- mapM f xs' ;; Ok (y :: ys)
  end.

(** ** Dates *)

(** [datetime.date]; [service_date] is one. *)
Record date : Type := mkdate { year : nat; month : nat; day : nat }.

Fixpoint zeros (n : nat) : string :=
  match n with
  | O => EmptyString
  | S n' => String "0" (zeros n')
  end.

(** ['%0<w>d' % n] *)
Definition zero_padded (w n : nat) : string :=
  let s := NilZero.string_of_uint (Nat.to_uint n) in
  (zeros (w - String.length s) ++ s)%string.

(** [date.isoformat()]: ['%04d-%02d-%02d'] *)
Definition isoformat (d : date) : string :=
  (zero_padded 4 (year d) ++ "-" ++ zero_padded 2 (month d) ++ "-"
     ++ zero_padded 2 (day d))%string.

(** A naive UTC [datetime], or an aware one, as the microseconds elapsed
    since [EPOCH = datetime.utcfromtimestamp(0)]. *)
Definition datetime : Type := Z.

Definition EPOCH : datetime := 0.

(** [timedelta(seconds=60 * 30)], in microseconds.  Declared by the module
    and read by none of its functions. *)
Definition MAX_TIME_BETWEEN_STOPS : Z := (60 * 30) * 1000000.

Definition STOP_THRESHOLD : Q := 3048 # 100.

Section Records.

(** numpy's float64 *)
Variable float : Type.

(** A row of [VEHICLE_QUERY]. *)
Record Position : Type := mkPosition {
  timestamp : datetime;
  vehicle_id : string;
  trip_id : option string;
  service_date : date;
  next_stop : string;
  seq : option Z;
  distance : float
}.

(** A row of [SELECT_TRIP_INDEX]; [seq] there is [stop_seq] here. *)
Record StopTime : Type := mkStopTime {
  id : string;
  time : string;
  route_id : string;
  direction_id : Z;
  stop_id : string;
  stop_seq : option Z;
  dist_along_shape : float
}.

End Records.

(** [Call = namedtuple('Call', [...])]; the field [timestamp] is
    [call_timestamp]. *)
Record Call : Type := mkCall {
  call_route_id : string;
  call_direction_id : Z;
  call_stop_id : string;
  call_timestamp : datetime;
  method : string
}.

Arguments timestamp {float} _.
Arguments vehicle_id {float} _.
Arguments trip_id {float} _.
Arguments service_date {float} _.
Arguments next_stop {float} _.
Arguments seq {float} _.
Arguments distance {float} _.
Arguments id {float} _.
Arguments time {float} _.
Arguments route_id {float} _.
Arguments direction_id {float} _.
Arguments stop_id {float} _.
Arguments stop_seq {float} _.
Arguments dist_along_shape {float} _.

(** ** Python operators on nullable values *)

(** [a == b] on two nullable strings *)
Definition opt_string_eqb (a b : option string) : bool :=
  match a, b with
  | None, None => true
  | Some x, Some y => String.eqb x y
  | _, _ => false
  end.

(** [a == b] on two nullable integers *)
Definition opt_Z_eqb (a b : option Z) : bool :=
  match a, b with
  | None, None => true
  | Some x, Some y => x =? y
  | _, _ => false
  end.

(** [s or d]: [None] and [0] are the falsy values of a nullable integer. *)
Definition seq_or (s : option Z) (d : Z) : Z :=
  match s with
  | None => d
  | Some 0 => d
  | Some z => z
  end.

(** [a < b] with [a] an integer: comparing with [None] raises. *)
Definition lt_int_opt (a : Z) (b : option Z) : result bool :=
  match b with
  | Some z => Ok (a <? z)
  | None => Raise TypeError
  end.

(** [a >= b] on two nullable integers *)
Definition ge_opt (a b : option Z) : result bool :=
  match a, b with
  | Some x, Some y => Ok (x >=? y)
  | _, _ => Raise TypeError
  end.

(** ** [mask] *)

(** [zip(positions[1:], positions)] *)
Definition successive {A} (positions : list A) : list (A * A) :=
  combine (tl positions) positions.

(** [itertools.compress] *)
Fixpoint compress {A} (data : list A) (selectors : list bool) : list A :=
  match data, selectors with
  | d :: data', s :: selectors' =>
      if s then d :: compress data' selectors' else compress data' selectors'
  | _, _ => []
  end.

Definition mask {A} (positions : list A) (key : A -> A -> result bool)
  : result (list A) :=
  filt <- mapM (fun xy => key (fst xy) (snd xy)) (successive positions) ;;
  let ch := true :: filt in
  Ok (compress positions ch).

(** ** [filter_positions] *)

Section Segmenter.

Variable float : Type.

(** [prev] is [None] while it is still the fresh [object()]. *)
Definition prev_trip_id (prev : option (Position float)) : option string :=
  match prev with
  | Some p => trip_id p
  | None => None
  end.

Definition prev_seq (prev : option (Position float)) : option Z :=
  match prev with
  | Some p => seq p
  | None => Some (-1)
  end.

(** The test of the [if] in the loop; [or] does not evaluate its second
    operand when the first holds. *)
Definition starts_new_run (prev : option (Position float))
    (position : Position float) : result bool :=
  if negb (opt_string_eqb (trip_id position) (prev_trip_id prev))
  then Ok true
  else lt_int_opt (seq_or (seq position) (-2)) (prev_seq prev).

(** [runs[-1].append(position)] *)
Fixpoint append_to_last (runs : list (list (Position float)))
    (position : Position float) : result (list (list (Position float))) :=
  match runs with
  | [] => Raise IndexError
  | [run] => Ok [run ++ [position]]
  | run :: runs' => rest <- append_to_last runs' position ;; Ok (run :: rest)
  end.

(** The [while] loop: [cursor] lists the rows [fetchone] still has to
    return. *)
Fixpoint segment (cursor : list (Position float))
    (prev : option (Position float)) (runs : list (list (Position float)))
  : result (list (list (Position float))) :=
  match cursor with
  | [] => Ok runs
  | position :: cursor' =>
      new <- starts_new_run prev position ;;
      let runs := if new then runs ++ [[]] else runs in
      runs <- append_to_last runs position ;;
      segment cursor' (Some position) runs
  end.

(** [run[0].service_date.isoformat() == date] *)
Definition starts_on (date : string) (run : list (Position float))
  : result bool :=
  match run with
  | [] => Raise IndexError
  | p :: _ => Ok (String.eqb (isoformat (service_date p)) date)
  end.

(** [lambda x, y: x.seq >= y.seq] *)
Definition seq_ge (x y : Position float) : result bool :=
  ge_opt (seq x) (seq y).

(** The list comprehension: runs are taken in order, each is tested and,
    when it passes, masked. *)
Fixpoint keep_and_mask (date : string) (runs : list (list (Position float)))
  : result (list (list (Position float))) :=
  match runs with
  | [] => Ok []
  | run :: runs' =>
      keep <- starts_on date run ;;
      if keep
      then masked <- mask run seq_ge ;;
           rest <- keep_and_mask date runs' ;;
           Ok (masked :: rest)
      else keep_and_mask date runs'
  end.

Definition filter_positions (cursor : list (Position float)) (date : string)
  : result (list (list (Position float))) :=
  runs <- segment cursor None [] ;;
  keep_and_mask date runs.

End Segmenter.

Arguments seq_ge {float} x y.

(** ** The external numeric and datetime functions *)

(** What [generate_calls] takes from numpy and [datetime].  Every function
    that can raise returns a [result]. *)
Record Kernel : Type := mkKernel {
  float : Type;
  (** [==] on two floats, as the comparison of two rows uses it *)
  float_eqb : float -> float -> bool;
  (** [(dt - EPOCH).total_seconds()] *)
  total_seconds : Z -> float;
  (** [np.interp(x, xp, fp)] *)
  np_interp : list float -> list float -> list float -> result (list float);
  (** the array [np.polyfit(x, y, 1)] returns *)
  coefficients : Type;
  np_polyfit : list float -> list float -> result coefficients;
  (** [np.poly1d(c)(x)] *)
  np_poly1d : coefficients -> float -> result float;
  (** [datetime.utcfromtimestamp(seconds)]; [.replace(tzinfo=pytz.UTC)] and
      [.astimezone(EST)] keep the instant. *)
  utcfromtimestamp : float -> result datetime
}.

(** ** Python sequences *)

(** [l[i]] for [0 <= i] *)
Definition item {A} (l : list A) (i : nat) : result A :=
  match nth_error l i with
  | Some a => Ok a
  | None => Raise IndexError
  end.

(** [l[-1]] *)
Definition last_item {A} (l : list A) : result A :=
  match l with
  | [] => Raise IndexError
  | _ => item l (length l - 1)
  end.

(** [l[i:j]] for [0 <= i], [0 <= j] *)
Definition slice {A} (i j : nat) (l : list A) : list A :=
  firstn (j - i) (skipn i l).

(** [l[-n:]] *)
Definition last_n {A} (n : nat) (l : list A) : list A :=
  skipn (length l - n) l.

(** [enumerate(l)], counting from [i] *)
Fixpoint enumerate_from {A} (i : nat) (l : list A) : list (nat * A) :=
  match l with
  | [] => []
  | a :: l' => (i, a) :: enumerate_from (S i) l'
  end.

(** ** [generate_calls] *)

Section CallGenerator.

Variable K : Kernel.

Definition to_unix (dt : datetime) : float K := total_seconds K (dt - EPOCH).

(** [a == b] on two rows of the schedule: field by field. *)
Definition stoptime_eqb (a b : StopTime (float K)) : bool :=
  String.eqb (id a) (id b) && String.eqb (time a) (time b)
  && String.eqb (route_id a) (route_id b)
  && (direction_id a =? direction_id b)
  && String.eqb (stop_id a) (stop_id b)
  && opt_Z_eqb (stop_seq a) (stop_seq b)
  && float_eqb K (dist_along_shape a) (dist_along_shape b).

(** [[x for x in stoptimes if x.seq == s]]; every row comes with its place
    in [stoptimes], which stands for the identity of the object. *)
Definition with_seq (stoptimes : list (StopTime (float K))) (s : option Z)
  : list (nat * StopTime (float K)) :=
  filter (fun ix => opt_Z_eqb (stop_seq (snd ix)) s)
         (enumerate_from 0 stoptimes).

(** [stoptimes.index(x)]: the first place holding [x] itself or a row equal
    to it; [ValueError] when there is none. *)
Fixpoint index_from (i : nat) (stoptimes : list (StopTime (float K)))
    (x : nat * StopTime (float K)) : result nat :=
  match stoptimes with
  | [] => Raise ValueError
  | y :: stoptimes' =>
      if Nat.eqb i (fst x) || stoptime_eqb y (snd x) then Ok i
      else index_from (S i) stoptimes' x
  end.

(** [stoptimes.index([x for x in stoptimes if x.seq == p.seq][0])], [p]
    being [run[0]] or [run[-1]]. *)
Definition index_of_seq (stoptimes : list (StopTime (float K)))
    (p : result (Position (float K))) : result nat :=
  p <- p ;;
  x <- item (with_seq stoptimes (seq p)) 0 ;;
  index_from 0 stoptimes x.

(** [try: si = ... except (IndexError, AttributeError): si = 0] *)
Definition start_index (run : list (Position (float K)))
    (stoptimes : list (StopTime (float K))) : result nat :=
  match index_of_seq stoptimes (item run 0) with
  | Raise IndexError | Raise AttributeError => Ok 0%nat
  | r => r
  end.

(** [try: ei = ... except (AttributeError, IndexError): ei = len(stoptimes)] *)
Definition end_index (run : list (Position (float K)))
    (stoptimes : list (StopTime (float K))) : result nat :=
  match index_of_seq stoptimes (last_item run) with
  | Raise IndexError | Raise AttributeError => Ok (length stoptimes)
  | r => r
  end.

(** [method or 'I'] *)
Definition method_or_I (m : option string) : string :=
  match m with
  | None => "I"
  | Some EmptyString => "I"
  | Some s => s
  end.

Definition call (stoptime : StopTime (float K)) (seconds : float K)
    (m : option string) : result Call :=
  t <- utcfromtimestamp K seconds ;;
  Ok (mkCall (route_id stoptime) (direction_id stoptime) (stop_id stoptime)
             t (method_or_I m)).

(** The body of either [try]:
    [call(stoptimes[i], np.poly1d(coefficients)(stop_positions[i]), m)]. *)
Definition extrapolated_call (c : coefficients K)
    (stoptimes : list (StopTime (float K))) (i : nat) (m : string)
  : result Call :=
  x <- item (map dist_along_shape stoptimes) i ;;
  extrapolated <- np_poly1d K c x ;;
  stoptime <- item stoptimes i ;;
  call stoptime extrapolated (Some m).

(** [except (ValueError, TypeError): pass].  The backward side prints
    diagnostics on [TypeError] and goes on, which is the same once
    standard output is left out. *)
Definition swallow (attempt : result Call) (calls : list Call)
    (add : Call -> list Call) : result (list Call) :=
  match attempt with
  | Ok c => Ok (add c)
  | Raise ValueError | Raise TypeError => Ok calls
  | Raise e => Raise e
  end.

(** [if ei < len(stoptimes): ...] *)
Definition extrapolate_forward (obs_distances obs_times : list (float K))
    (stoptimes : list (StopTime (float K))) (ei : nat) (calls : list Call)
  : result (list Call) :=
  if (ei <? length stoptimes)%nat then
    c <- np_polyfit K (last_n 3 obs_distances) (last_n 3 obs_times) ;;
    swallow (extrapolated_call c stoptimes ei "E") calls
            (fun e => calls ++ [e])
  else Ok calls.

(** [if si > 0: ...] *)
Definition extrapolate_back (obs_distances obs_times : list (float K))
    (stoptimes : list (StopTime (float K))) (si : nat) (calls : list Call)
  : result (list Call) :=
  if (0 <? si)%nat then
    c <- np_polyfit K (firstn 3 obs_distances) (firstn 3 obs_times) ;;
    swallow (extrapolated_call c stoptimes si "S") calls
            (fun s => s :: calls)
  else Ok calls.

(** [[call(stop, secs) for stop, secs in
     zip(stoptimes[si:ei], interpolated)]] *)
Definition interpolated_calls (stoptimes : list (StopTime (float K)))
    (si ei : nat) (interpolated : list (float K)) : result (list Call) :=
  mapM (fun ss => call (fst ss) (snd ss) None)
       (combine (slice si ei stoptimes) interpolated).

Definition generate_calls (run : list (Position (float K)))
    (stoptimes : list (StopTime (float K))) : result (list Call) :=
  let obs_distances := map distance run in
  let obs_times := map (fun p => to_unix (timestamp p)) run in
  let stop_positions := map dist_along_shape stoptimes in
  si <- start_index run stoptimes ;;
  ei <- end_index run stoptimes ;;
  interpolated <- np_interp K (slice si ei stop_positions)
                            obs_distances obs_times ;;
  calls <- interpolated_calls stoptimes si ei interpolated ;;
  if (length calls =? 0)%nat then Ok []
  else if (3 <? length run)%nat then
    calls <- extrapolate_forward obs_distances obs_times stoptimes ei calls ;;
    extrapolate_back obs_distances obs_times stoptimes si calls
  else Ok calls.

End CallGenerator.

(** ** The exact kernel *)

(** numpy and [datetime] computed with exact rationals: every float64 is the
    rational it denotes and no operation rounds, overflows or yields a NaN.
    [np.interp] and [np.polyfit] follow numpy's documentation; on
    sample points that never go down [interp] is numpy's own loop, on others
    numpy's binary search may pick another segment.  What a fit over points
    that share one abscissa returns is LAPACK's answer: [polyfit] takes it
    as the parameter [degenerate], and [min_norm_fit] is what numpy's
    scaling and minimum-norm solution come to.  The years [datetime] refuses
    are not modelled: [utcfromtimestamp] always returns.  The float64 code
    can differ from this kernel in the last microsecond of a value it
    computes, and on instants from [exact_until] on. *)
Module Exact.

Local Open Scope Q_scope.

Definition Qlt_bool (a b : Q) : bool := negb (Qle_bool b a).

(** The interpolant at [x], which is at least [x0]. *)
Fixpoint interp_from (x x0 y0 : Q) (rest : list (Q * Q)) : Q :=
  match rest with
  | [] => y0
  | (x1, y1) :: rest' =>
      if Qlt_bool x x1 then
        if Qeq_bool x x0 then y0
        else let slope := (y1 - y0) / (x1 - x0) in slope * (x - x0) + y0
      else interp_from x x1 y1 rest'
  end.

(** Left of the samples the value is [fp[0]], right of them [fp[-1]]. *)
Definition interp_at (samples : list (Q * Q)) (x : Q) : Q :=
  match samples with
  | [] => 0
  | (x0, y0) :: rest =>
      if Qlt_bool x x0 then y0 else interp_from x x0 y0 rest
  end.

Definition interp (x xp fp : list Q) : result (list Q) :=
  if (length xp =? 0)%nat then Raise ValueError
  else if negb (length fp =? length xp)%nat then Raise ValueError
  else Ok (map (interp_at (combine xp fp)) x).

Definition Qsum (l : list Q) : Q := fold_right Qplus 0 l.

(** The least-squares line through the points, highest power first. *)
Definition polyfit (degenerate : list Q -> list Q -> result (list Q))
    (x y : list Q) : result (list Q) :=
  if (length x =? 0)%nat then Raise TypeError
  else if negb (length x =? length y)%nat then Raise TypeError
  else
    let n := inject_Z (Z.of_nat (length x)) in
    let sx := Qsum x in
    let sy := Qsum y in
    let sxx := Qsum (map (fun a => a * a) x) in
    let sxy := Qsum (map (fun ab => fst ab * snd ab) (combine x y)) in
    let det := n * sxx - sx * sx in
    if Qeq_bool det 0 then degenerate x y
    else
      let slope := (n * sxy - sx * sy) / det in
      Ok [slope; (sy - slope * sx) / n].

(** A fit over points that all lie at the abscissa [d].  [np.polyfit]
    divides each column of the Vandermonde matrix by its norm and asks
    [lstsq] for the solution of minimum norm.  At [d = 0] the first column
    is 0/0 and [lstsq] raises [LinAlgError].  Elsewhere the two scaled
    columns are one vector up to sign, the solution of minimum norm gives
    each half of the mean ordinate, and unscaling leaves the line of slope
    [mean / (2 d)] and intercept [mean / 2]; the [RankWarning] is silenced
    by the module. *)
Definition min_norm_fit (x y : list Q) : result (list Q) :=
  match x with
  | [] => Raise TypeError
  | d :: _ =>
      if Qeq_bool d 0 then Raise LinAlgError
      else
        let mean := Qsum y / inject_Z (Z.of_nat (length y)) in
        Ok [mean / (2 * d); mean / 2]
  end.

(** [np.polyval]: Horner's rule. *)
Definition poly1d (c : list Q) (x : Q) : result Q :=
  Ok (fold_left (fun y pv => y * x + pv) c 0).

(** Rounding to the nearest integer, ties to the even one. *)
Definition round_half_even (q : Q) : Z :=
  let f := Qfloor q in
  match Qcompare (q - inject_Z f) (1 # 2) with
  | Lt => f
  | Gt => (f + 1)%Z
  | Eq => if Z.even f then f else (f + 1)%Z
  end.

(** A [datetime] has microsecond resolution. *)
Definition utcfromtimestamp (seconds : Q) : result datetime :=
  Ok (round_half_even (seconds * 1000000)).

Definition total_seconds (us : Z) : Q := us # 1000000.

(** 2^33 s after the epoch, in microseconds: 16 March 2242.  Below it a
    float64 number of seconds lies within half a microsecond of the instant
    it stands for, and [total_seconds] followed by [utcfromtimestamp] gives
    the instant back in the float64 code as it does here.  From it on the
    float64 code can come back one microsecond off. *)
Definition exact_until : Z := 2 ^ 33 * 1000000.

Definition kernel_with (degenerate : list Q -> list Q -> result (list Q))
  : Kernel :=
  mkKernel Qeq_bool total_seconds interp (polyfit degenerate) poly1d
           utcfromtimestamp.

(** The kernel of numpy's own answer to a degenerate fit. *)
Definition kernel : Kernel := kernel_with min_norm_fit.

End Exact.

(** ** Predicates on runs *)

Section RunPredicates.

Variable float : Type.
Implicit Types (p q position : Position float) (run : list (Position float)).
Implicit Types (runs : list (list (Position float))).

(** [p] comes right before [q] in a run: the loop saw no new trip and no
    lower sequence number at [q]. *)
Definition linked p q : Prop :=
  trip_id q = trip_id p /\
  exists sp, seq p = Some sp /\ sp <= seq_or (seq q) (-2).

Definition chained run : Prop :=
  Forall (fun xy => linked (snd xy) (fst xy)) (successive run).

(** Both sequence numbers are present and the second is no lower. *)
Definition seq_le p q : Prop :=
  exists sp sq, seq p = Some sp /\ seq q = Some sq /\ sp <= sq.

(** What the loop maintains: no run is empty, every run is chained, and
    [prev] closes the last run. *)
Definition segment_inv (prev : option (Position float)) runs : Prop :=
  Forall (fun run => run <> []) runs /\
  Forall chained runs /\
  match prev with
  | None => runs = []
  | Some p => exists init run, runs = init ++ [run ++ [p]]
  end.

(** The sequence numbers of a run never go down, from any position to any
    later one. *)
Definition nondecreasing run : Prop :=
  forall i j p q, (i < j)%nat ->
    nth_error run i = Some p -> nth_error run j = Some q -> seq_le p q.

(** The test of the list comprehension, as a boolean. *)
Definition on_date (date : string) run : bool :=
  match run with
  | [] => false
  | p :: _ => String.eqb (isoformat (service_date p)) date
  end.

(** Every field but the timestamp agrees. *)
Definition same_but_time p q : Prop :=
  vehicle_id p = vehicle_id q /\ trip_id p = trip_id q /\
  service_date p = service_date q /\ next_stop p = next_stop q /\
  seq p = seq q /\ distance p = distance q.

(** Two outcomes agree: the same exception, or results related by [R]. *)
Definition result_rel {A} (R : A -> A -> Prop) (r1 r2 : result A) : Prop :=
  match r1, r2 with
  | Ok a, Ok b => R a b
  | Raise e1, Raise e2 => e1 = e2
  | _, _ => False
  end.

(** [prev] on either side: both still the fresh object, or related rows. *)
Definition prev_rel (prev1 prev2 : option (Position float)) : Prop :=
  match prev1, prev2 with
  | None, None => True
  | Some p, Some q => same_but_time p q
  | _, _ => False
  end.

(** The trip id and the sequence number came with every row. *)
Definition complete p : Prop :=
  (exists t, trip_id p = Some t) /\ (exists s, seq p = Some s).

End RunPredicates.

Arguments linked {float} p q.
Arguments chained {float} run.
Arguments seq_le {float} p q.
Arguments segment_inv {float} prev runs.
Arguments nondecreasing {float} run.
Arguments on_date {float} date run.
Arguments same_but_time {float} p q.
Arguments prev_rel {float} prev1 prev2.
Arguments complete {float} p.

(** ** The segmentation as the specification words it *)

Section SpecSegmentation.

Variable float : Type.

(** A new run starts where the trip id changes or the stop-sequence number
    goes down, a missing number of the current position counting as -2. *)
Definition spec_new_run (prev position : Position float) : result bool :=
  if negb (opt_string_eqb (trip_id position) (trip_id prev)) then Ok true
  else
    lt_int_opt (match seq position with Some s => s | None => -2 end)
               (seq prev).

(** The runs of a stream whose first position is [prev] and whose open run
    is [run]. *)
Fixpoint spec_runs (prev : Position float) (run : list (Position float))
    (cursor : list (Position float)) : result (list (list (Position float))) :=
  match cursor with
  | [] => Ok [run]
  | position :: cursor' =>
      new <- spec_new_run prev position ;;
      if new
      then rest <- spec_runs position [position] cursor' ;; Ok (run :: rest)
      else spec_runs position (run ++ [position]) cursor'
  end.

End SpecSegmentation.

(** ** Sample rows *)

Module Samples.

Definition march4 : date := mkdate 2017 3 4.
Definition march5 : date := mkdate 2017 3 5.

(** A position of vehicle 7001, with its trip id and sequence number. *)
Definition row (t : Z) (trip : string) (d : date) (s : Z) (dist : Q)
  : Position Q :=
  mkPosition t "7001" (Some trip) d "305165" (Some s) dist.

Definition a1 := row 0 "A" march5 1 (10 # 1).
Definition a2 := row 30000000 "A" march5 3 (250 # 1).
Definition a3 := row 60000000 "A" march5 2 (180 # 1).
Definition a4 := row 90000000 "A" march5 2 (190 # 1).

(** Two positions before the first stop of a trip whose stop sequence
    starts at 0. *)
Definition z1 := row 0 "A" march5 0 (0 # 1).
Definition z2 := row 30000000 "A" march5 0 (5 # 1).

(** A lead-in run of the day before, then a run of the day. *)
Definition n1 := row 0 "N" march4 1 (0 # 1).
Definition n2 := row 30000000 "N" march4 2 (90 # 1).
Definition b1 := row 60000000 "B" march5 1 (0 # 1).
Definition b2 := row 90000000 "B" march5 2 (80 # 1).


(** [a1], [a2] with two hours between them. *)
Definition a2_late := row 7200000000 "A" march5 3 (250 # 1).

(** A scheduled stop of route B46. *)
Definition stop (name : string) (s : Z) (dist : Q) : StopTime Q :=
  mkStopTime name "08:00:00" "B46" 0 name (Some s) dist.

(** A bus that crawls, then speeds up while nearing the stop of sequence
    number 3: distances and timestamps both go up along the run. *)
Definition run_c : list (Position Q) :=
  [ row 0 "A" march5 1 (0 # 1); row 10000000 "A" march5 2 (10 # 1);
    row 12000000 "A" march5 3 (20 # 1); row 40000000 "A" march5 3 (30 # 1) ].

Definition schedule_c : list (StopTime Q) :=
  [ stop "s1" 1 (5 # 1); stop "s2" 2 (30 # 1); stop "s3" 3 (31 # 1) ].

(** Rows in the order of the query, by sequence number: the timestamps go
    down while the distances go up. *)
Definition run_r : list (Position Q) :=
  [ row 100000000 "A" march5 1 (0 # 1); row 50000000 "A" march5 2 (50 # 1);
    row 0 "A" march5 3 (100 # 1) ].

Definition schedule_r : list (StopTime Q) :=
  [ stop "s1" 1 (25 # 1); stop "s2" 2 (75 # 1); stop "s3" 3 (120 # 1) ].

(** Four positions, all nearing the stop of sequence number 2. *)
Definition run_same : list (Position Q) :=
  [ row 0 "A" march5 2 (60 # 1); row 10000000 "A" march5 2 (70 # 1);
    row 20000000 "A" march5 2 (80 # 1); row 30000000 "A" march5 2 (90 # 1) ].

Definition schedule_5 : list (StopTime Q) :=
  [ stop "s1" 1 (0 # 1); stop "s2" 2 (100 # 1); stop "s3" 3 (200 # 1) ].

(** Four positions from before the second stop to before the third. *)
Definition run_both : list (Position Q) :=
  [ row 0 "A" march5 2 (90 # 1); row 10000000 "A" march5 2 (95 # 1);
    row 60000000 "A" march5 3 (150 # 1); row 100000000 "A" march5 3 (190 # 1) ].

(** Three positions on a line: distance 0 at 0 s, 50 at 50 s, 100 at 100 s. *)
Definition run_8 : list (Position Q) :=
  [ row 0 "A" march5 1 (0 # 1); row 50000000 "A" march5 2 (50 # 1);
    row 100000000 "A" march5 4 (100 # 1) ].

Definition schedule_8 : list (StopTime Q) :=
  [ stop "s1" 1 (10 # 1); stop "s2" 2 (25 # 1); stop "s3" 3 (60 # 1);
    stop "s4" 4 (110 # 1) ].

(** A bus that stands at distance 0 while its rows come to name the second
    stop. *)
Definition run_zero : list (Position Q) :=
  [ row 300000000 "B" march5 1 (0 # 1); row 310000000 "B" march5 2 (0 # 1);
    row 320000000 "B" march5 2 (0 # 1); row 330000000 "B" march5 2 (0 # 1) ].

(** A bus that stands still at distance 10: the last three positions share
    a distance. *)
Definition run_still : list (Position Q) :=
  [ row 200000000 "C" march5 1 (0 # 1); row 210000000 "C" march5 2 (10 # 1);
    row 220000000 "C" march5 2 (10 # 1); row 230000000 "C" march5 3 (10 # 1) ].

(** A schedule that shares no sequence number with [run_8]. *)
Definition schedule_other : list (StopTime Q) :=
  [ stop "t7" 7 (10 # 1); stop "t8" 8 (20 # 1) ].

(** What [generate_calls] makes of [run_c] and of [run_both]. *)
Definition calls_c : list Call :=
  [ mkCall "B46" 0 "s1" 5000000 "I"; mkCall "B46" 0 "s2" 40000000 "I";
    mkCall "B46" 0 "s3" 37166667 "E" ].

Definition calls_both : list Call :=
  [ mkCall "B46" 0 "s2" 12105263 "S"; mkCall "B46" 0 "s2" 14545455 "I";
    mkCall "B46" 0 "s3" 108644689 "E" ].

End Samples.

(** ** Places in the schedule *)

(** The place of the first scheduled stop whose sequence number is [s],
    counting from [i]. *)
Fixpoint first_with_seq {float} (i : nat) (stoptimes : list (StopTime float))
    (s : option Z) : option nat :=
  match stoptimes with
  | [] => None
  | x :: stoptimes' =>
      if opt_Z_eqb (stop_seq x) s then Some i
      else first_with_seq (S i) stoptimes' s
  end.

(** ** Ordered samples *)

(** The sample points after [(x0, y0)] go up in both coordinates. *)
Fixpoint ascending (x0 y0 : Q) (rest : list (Q * Q)) : Prop :=
  match rest with
  | [] => True
  | (x1, y1) :: rest' => (x0 <= x1)%Q /\ (y0 <= y1)%Q /\ ascending x1 y1 rest'
  end.

Definition ascending_samples (samples : list (Q * Q)) : Prop :=
  match samples with
  | [] => True
  | (x0, y0) :: rest => ascending x0 y0 rest
  end.

(** The calls of method 'I'. *)
Definition interpolated_only (calls : list Call) : list Call :=
  filter (fun c => String.eqb (method c) "I") calls.

(** The call [generate_calls] makes for a scheduled stop inside the
    interpolation range, under the exact kernel. *)
Definition exact_interpolated_call (samples : list (Q * Q))
    (stoptime : StopTime Q) : Call :=
  mkCall (route_id stoptime) (direction_id stoptime) (stop_id stoptime)
         (Exact.round_half_even
            (Exact.interp_at samples (dist_along_shape stoptime) * 1000000)%Q)
         "I".

(** [zip(obs_distances, obs_times)] *)
Definition exact_samples (run : list (Position Q)) : list (Q * Q) :=
  combine (map distance run)
          (map (fun p => Exact.total_seconds (timestamp p - EPOCH)) run).

(** ** [common] *)

Section Common.

Variable A : Type.

(** [==] on the elements counted; they are the keys of a dict. *)
Variable eqb : A -> A -> bool.

(** One step of [Counter(lis)]: [counts[x] = counts.get(x, 0) + 1].  A dict
    keeps its keys in the order of their first insertion. *)
Fixpoint count_up (x : A) (counts : list (A * nat)) : list (A * nat) :=
  match counts with
  | [] => [(x, 1%nat)]
  | (y, n) :: counts' =>
      if eqb y x then (y, S n) :: counts' else (y, n) :: count_up x counts'
  end.

Definition Counter (lis : list A) : list (A * nat) :=
  fold_left (fun counts x => count_up x counts) lis [].

(** [max(items, key=itemgetter(1))] after [best]: the first item of the
    greatest count. *)
Fixpoint max_count (best : A * nat) (items : list (A * nat)) : A * nat :=
  match items with
  | [] => best
  | it :: items' =>
      if (snd best <? snd it)%nat then max_count it items'
      else max_count best items'
  end.

(** [most_common(1)], which is [heapq.nlargest(1, items, key)]. *)
Definition most_common_1 (counts : list (A * nat)) : list (A * nat) :=
  match counts with
  | [] => []
  | it :: items => [max_count it items]
  end.

Definition common (lis : list A) : result A :=
  it <- item (most_common_1 (Counter lis)) 0 ;;
  Ok (fst it).

End Common.

(** ** [process_vehicle] *)

(** What one [executemany] writes: the rows of [INSERT.format(table,
    vehicle_id, trip_id)], one per call. *)
Record Batch : Type := mkBatch {
  batch_table : string;
  batch_vehicle_id : string;
  batch_trip_id : option string;
  batch_calls : list Call
}.

(** What a run of [process_vehicle] leaves behind: the batches committed,
    the short runs reported by [logging.info] with their first timestamp, and
    the counter [lenc]. *)
Record Journal : Type := mkJournal {
  committed : list Batch;
  short_runs : list (nat * datetime);
  lenc : nat
}.

Definition journal0 : Journal := mkJournal [] [] 0.

Section Worker.

Variable K : Kernel.

(** The two queries of the worker, answered by the database.  Failures of
    the database itself are not modelled. *)
Record Database : Type := mkDatabase {
  (** the rows of [VEHICLE_QUERY] for a vehicle id and a date *)
  vehicle_query : string -> string -> list (Position (float K));
  (** the rows of [SELECT_TRIP_INDEX] for a trip id *)
  select_trip_index : option string -> list (StopTime (float K))
}.

Variable db : Database.
Variable vehicle : string.
Variable table : string.

(** The body of the [for] loop for a run of 3 positions or more, up to the
    [executemany]. *)
Definition run_batch (run : list (Position (float K))) : result Batch :=
  trip <- common opt_string_eqb (map trip_id run) ;;
  calls <- generate_calls K run (select_trip_index db trip) ;;
  Ok (mkBatch table vehicle trip calls).

(** The [for] loop.  An exception ends it; the journal is what had been
    committed and reported by then. *)
Fixpoint process_runs (runs : list (list (Position (float K))))
    (j : Journal) : Journal * option exn :=
  match runs with
  | [] => (j, None)
  | run :: runs' =>
      if (length run =? 0)%nat then process_runs runs' j
      else if (length run <=? 2)%nat then
        match item run 0 with
        | Ok p =>
            process_runs runs'
              (mkJournal (committed j)
                         (short_runs j ++ [(length run, timestamp p)])
                         (lenc j))
        | Raise e => (j, Some e)
        end
      else
        match run_batch run with
        | Ok b =>
            process_runs runs'
              (mkJournal (committed j ++ [b]) (short_runs j)
                         (lenc j + length (batch_calls b)))
        | Raise e => (j, Some e)
        end
  end.

Definition process_vehicle (date : string) : Journal * option exn :=
  match filter_positions (vehicle_query db vehicle date) date with
  | Ok runs => process_runs runs journal0
  | Raise e => (journal0, Some e)
  end.

End Worker.

(** ** Predicates of the further properties *)

(** The number of elements of [l] equal to [x]. *)
Definition occurrences {A} (eqb : A -> A -> bool) (x : A) (l : list A) : nat :=
  length (filter (eqb x) l).

(** What [mask] keeps after the first element. *)
Definition kept_pairs {A} (key : A -> A -> result bool) (l : list A)
  : list (A * A) :=
  filter (fun xy => match key (fst xy) (snd xy) with
                    | Ok true => true
                    | _ => false
                    end)
         (successive l).

(** The runs [process_vehicle] sends to [generate_calls], and those it only
    reports. *)
Definition is_long {A} (run : list A) : bool := (2 <? length run)%nat.

Definition is_short {A} (run : list A) : bool :=
  negb (length run =? 0)%nat && (length run <=? 2)%nat.

(** What [logging.info] is told of a short run: its length and the
    timestamp of its first position. *)
Definition short_run_report {float} (run : list (Position float))
  : nat * datetime :=
  (length run, match run with p :: _ => timestamp p | [] => 0 end).

(** The rows a list of batches writes. *)
Definition written (batches : list Batch) : list Call :=
  flat_map batch_calls batches.

(** The call carries the route, the direction and the stop of the scheduled
    stop. *)
Definition made_for {float} (c : Call) (st : StopTime float) : Prop :=
  call_route_id c = route_id st /\ call_direction_id c = direction_id st /\
  call_stop_id c = stop_id st.

(** ** Sample rows of the further properties *)

Module MoreSamples.

Import Samples.

(** A position without trip id. *)
Definition u1 : Position Q :=
  mkPosition 0 "7001"%string None march5 "305165"%string (Some 5) (0 # 1).

(** A position without sequence number, then one of the same trip. *)
Definition m1 : Position Q :=
  mkPosition 120000000 "7001"%string (Some "A"%string) march5
             "305165"%string None (260 # 1).
Definition m2 := row 150000000 "A" march5 4 (300 # 1).

(** The rows of vehicle 7001: a run of trip A, a short run of trip B and a
    lead-in run of the day before. *)
Definition rows_7001 : list (Position Q) := run_c ++ [b1; b2] ++ [n1; n2].

(** The rows of vehicle 7002: the run of trip A, the bus standing at
    distance 0 on trip B, then the run of trip C. *)
Definition rows_7002 : list (Position Q) := run_c ++ run_zero ++ run_still.

Definition db : Database Exact.kernel :=
  mkDatabase Exact.kernel
    (fun vehicle date =>
       if String.eqb date "2017-03-05" then
         if String.eqb vehicle "7001" then rows_7001
         else if String.eqb vehicle "7002" then rows_7002
         else []
       else [])
    (fun trip =>
       if opt_string_eqb trip (Some "A"%string) then schedule_c
       else if opt_string_eqb trip (Some "B"%string) then schedule_5
       else if opt_string_eqb trip (Some "C"%string) then schedule_c
       else []).

(** Three positions between a stop they have left behind and a stop they
    have not reached. *)
Definition run_clamp : list (Position Q) :=
  [ row 100000000 "A" march5 1 (20 # 1); row 110000000 "A" march5 2 (30 # 1);
    row 120000000 "A" march5 3 (40 # 1) ].

Definition schedule_clamp : list (StopTime Q) :=
  [ stop "s1" 1 (10 # 1); stop "s2" 2 (45 # 1); stop "s3" 3 (50 # 1) ].

Definition calls_clamp : list Call :=
  [ mkCall "B46" 0 "s1" 100000000 "I"; mkCall "B46" 0 "s2" 120000000 "I" ].

(** A schedule whose second stop lies where the second position of [run_8]
    was observed. *)
Definition schedule_at : list (StopTime Q) :=
  [ stop "s1" 1 (10 # 1); stop "s2" 2 (50 # 1); stop "s3" 3 (60 # 1);
    stop "s4" 4 (110 # 1) ].

Definition calls_at : list Call :=
  [ mkCall "B46" 0 "s1" 10000000 "I"; mkCall "B46" 0 "s2" 50000000 "I";
    mkCall "B46" 0 "s3" 60000000 "I" ].

Definition batch_A (vehicle : string) : Batch :=
  mkBatch "calls"%string vehicle (Some "A"%string) calls_c.

End MoreSamples.

(** * Properties *)

(** ** The [result] monad and list helpers *)

Lemma bind_Ok {A B} (r : result A) (k : A -> result B) (b : B) :
  bind r k = Ok b -> exists a, r = Ok a /\ k a = Ok b.
Proof.
  destruct r as [a|e]; simpl; intros H; [eauto | discriminate].
Qed.

Ltac inv_bind H :=
  let a := fresh "v" in
  let Ha := fresh "Hv" in
  apply bind_Ok in H; destruct H as [a [Ha H]].

Lemma successive_cons2 {A} (x y : A) (l : list A) :
  successive (x :: y :: l) = (y, x) :: successive (y :: l).
Proof. reflexivity. Qed.

Lemma successive_snoc {A} (l : list A) (a b : A) :
  successive ((l ++ [a]) ++ [b]) = successive (l ++ [a]) ++ [(b, a)].
Proof.
  induction l as [|x l IH]; [reflexivity|].
  destruct l as [|y l]; [reflexivity|].
  simpl app in *. rewrite !successive_cons2, IH. reflexivity.
Qed.

Lemma successive_nth {A} (R : A -> A -> Prop) (l : list A) :
  Forall (fun xy => R (snd xy) (fst xy)) (successive l) <->
  (forall i a b, nth_error l i = Some a -> nth_error l (S i) = Some b -> R a b).
Proof.
  induction l as [|x l IH].
  - split; [intros _ i a b H; destruct i; discriminate | constructor].
  - destruct l as [|y l].
    + split; [|constructor].
      intros _ i a b H1 H2. destruct i as [|i]; [discriminate|].
      simpl in H2. destruct i; discriminate.
    + rewrite successive_cons2. split.
      * intros H i a b Ha Hb. inversion H as [|? ? Hxy Hrest]; subst.
        destruct i as [|i].
        -- simpl in *. congruence.
        -- apply (proj1 IH Hrest i); assumption.
      * intros H. constructor.
        -- apply (H 0%nat); reflexivity.
        -- apply IH. intros i a b Ha Hb. apply (H (S i)); assumption.
Qed.

Lemma opt_string_eqb_eq (a b : option string) :
  opt_string_eqb a b = true <-> a = b.
Proof.
  destruct a as [x|], b as [y|]; simpl; try (split; congruence).
  rewrite String.eqb_eq. split; congruence.
Qed.

Lemma opt_Z_eqb_eq (a b : option Z) : opt_Z_eqb a b = true <-> a = b.
Proof.
  destruct a as [x|], b as [y|]; simpl; try (split; congruence).
  rewrite Z.eqb_eq. split; congruence.
Qed.

(** ** [mask] *)

Lemma compress_all_true {A} (l : list A) :
  compress l (true :: map (fun _ => true) (successive l)) = l.
Proof.
  induction l as [|x l IH]; [reflexivity|].
  destruct l as [|y l]; [reflexivity|].
  rewrite successive_cons2. simpl map. simpl compress. f_equal. exact IH.
Qed.

(** Whatever the key, [mask] keeps the first element. *)
Lemma mask_head {A} (l r : list A) (key : A -> A -> result bool) :
  mask l key = Ok r -> hd_error r = hd_error l.
Proof.
  unfold mask. intros H. inv_bind H. injection H as <-.
  destruct l; reflexivity.
Qed.

(** The key is applied to a position and the one before it in the run as
    given, kept or not: the output of [mask] alone need not be sorted. *)
Lemma mask_compares_with_predecessor :
  mask [5; 3; 4] (fun x y => Ok (x >=? y)) = Ok [5; 4].
Proof. reflexivity. Qed.

(** What [compress] keeps under the selectors [mask] builds. *)
Lemma kept_pairs_cons2 {A} (key : A -> A -> result bool) (x y : A)
    (l : list A) :
  kept_pairs key (x :: y :: l)
  = if match key y x with Ok true => true | _ => false end
    then (y, x) :: kept_pairs key (y :: l)
    else kept_pairs key (y :: l).
Proof. reflexivity. Qed.

Lemma compress_kept {A} (key : A -> A -> result bool) (l : list A) :
  forall (b : bool) (filt : list bool),
    mapM (fun xy => key (fst xy) (snd xy)) (successive l) = Ok filt ->
    compress l (b :: filt)
    = (if b then firstn 1 l else []) ++ map fst (kept_pairs key l).
Proof.
  induction l as [|x l IH]; intros b filt H.
  - destruct b; reflexivity.
  - destruct l as [|y l].
    + injection H as <-. destruct b; reflexivity.
    + rewrite successive_cons2 in H. simpl in H. inv_bind H. inv_bind H.
      injection H as <-.
      change (compress (x :: y :: l) (b :: v :: v0))
        with (if b then x :: compress (y :: l) (v :: v0)
              else compress (y :: l) (v :: v0)).
      rewrite (IH v v0 Hv0), kept_pairs_cons2, Hv.
      destruct b, v; reflexivity.
Qed.

Section SegmenterFacts.

Variable float : Type.
Implicit Types (p q position : Position float) (run : list (Position float)).
Implicit Types (runs : list (list (Position float))).

Lemma append_to_last_snoc runs run position :
  append_to_last (runs ++ [run]) position = Ok (runs ++ [run ++ [position]]).
Proof.
  induction runs as [|r runs IH]; [reflexivity|].
  simpl app. simpl append_to_last. rewrite IH.
  destruct (runs ++ [run]) eqn:E; [destruct runs; discriminate|].
  reflexivity.
Qed.

Lemma append_to_last_Ok runs position runs' :
  append_to_last runs position = Ok runs' ->
  exists init run, runs = init ++ [run] /\ runs' = init ++ [run ++ [position]].
Proof.
  destruct runs as [|r runs] using rev_ind; [discriminate|].
  rewrite append_to_last_snoc. intros [= <-]. eauto.
Qed.

Lemma starts_new_run_false prev position :
  starts_new_run prev position = Ok false ->
  trip_id position = prev_trip_id prev /\
  exists sp, prev_seq prev = Some sp /\ sp <= seq_or (seq position) (-2).
Proof.
  unfold starts_new_run.
  destruct (opt_string_eqb _ _) eqn:E; simpl; [|discriminate].
  apply opt_string_eqb_eq in E. intros H. split; [exact E|].
  destruct (prev_seq prev) as [sp|]; simpl in H; [|discriminate].
  exists sp. split; [reflexivity|]. injection H as H.
  apply Z.ltb_ge in H. exact H.
Qed.

Lemma chained_snoc run p position :
  chained (run ++ [p]) -> linked p position ->
  chained ((run ++ [p]) ++ [position]).
Proof.
  unfold chained. intros H L. rewrite successive_snoc.
  apply Forall_app. split; [exact H|]. constructor; [exact L|constructor].
Qed.

Lemma segment_inv_step prev runs position new runs' :
  segment_inv prev runs ->
  starts_new_run prev position = Ok new ->
  append_to_last (if new then runs ++ [[]] else runs) position = Ok runs' ->
  segment_inv (Some position) runs'.
Proof.
  intros (Hne & Hch & Hprev) Hnew Happ. destruct new.
  - rewrite append_to_last_snoc in Happ. injection Happ as <-.
    repeat split.
    + apply Forall_app. split; [exact Hne|].
      constructor; [discriminate|constructor].
    + apply Forall_app. split; [exact Hch|].
      constructor; [constructor|constructor].
    + exists runs, []. reflexivity.
  - apply starts_new_run_false in Hnew. destruct Hnew as [Ht (sp & Hsp & Hle)].
    destruct prev as [p|]; simpl in *.
    + destruct Hprev as (init & run & ->).
      rewrite append_to_last_snoc in Happ. injection Happ as <-.
      apply Forall_app in Hne. destruct Hne as [Hne _].
      apply Forall_app in Hch. destruct Hch as [Hch Hlast].
      inversion Hlast as [|? ? Hrun _]; subst.
      repeat split.
      * apply Forall_app. split; [exact Hne|].
        constructor; [|constructor]. destruct (run ++ [p]); discriminate.
      * apply Forall_app. split; [exact Hch|]. constructor; [|constructor].
        apply chained_snoc; [exact Hrun|]. split; [exact Ht|]. eauto.
      * exists init, (run ++ [p]). reflexivity.
    + subst runs. discriminate.
Qed.

Lemma segment_inv_final cursor : forall prev runs out,
  segment_inv prev runs ->
  segment cursor prev runs = Ok out ->
  Forall (fun run => run <> []) out /\ Forall chained out.
Proof.
  induction cursor as [|position cursor IH]; intros prev runs out Hinv H.
  - injection H as <-. destruct Hinv as (? & ? & _). split; assumption.
  - simpl in H. inv_bind H. inv_bind H.
    eapply IH; [|exact H]. eapply segment_inv_step; eassumption.
Qed.

Lemma segment_runs cursor out :
  segment cursor None [] = Ok out ->
  Forall (fun run => run <> []) out /\ Forall chained out.
Proof.
  apply segment_inv_final. repeat split; constructor.
Qed.

(** The loop loses no position and moves none. *)
Lemma segment_concat cursor : forall prev runs out,
  segment cursor prev runs = Ok out -> concat out = concat runs ++ cursor.
Proof.
  induction cursor as [|position cursor IH]; intros prev runs out H.
  - injection H as <-. rewrite app_nil_r. reflexivity.
  - simpl in H. inv_bind H. inv_bind H.
    apply append_to_last_Ok in Hv0. destruct Hv0 as (init & run & E & ->).
    rewrite (IH _ _ _ H).
    assert (Hc : concat (if v then runs ++ [[]] else runs) = concat runs).
    { destruct v; [|reflexivity]. rewrite concat_app. simpl.
      rewrite app_nil_r. reflexivity. }
    rewrite E in Hc. rewrite concat_app in *. simpl in *.
    rewrite app_nil_r in *. rewrite <- Hc, <- !app_assoc. reflexivity.
Qed.

End SegmenterFacts.

Section FilterFacts.

Variable float : Type.
Implicit Types (p q position : Position float) (run : list (Position float)).
Implicit Types (runs : list (list (Position float))).

Lemma linked_seq_ge p q b :
  linked p q -> seq_ge q p = Ok b -> b = true /\ seq_le p q.
Proof.
  intros [_ (sp & Hsp & Hle)]. unfold seq_ge, ge_opt, seq_le. rewrite Hsp.
  destruct (seq q) as [sq|]; [|discriminate]. intros [= <-].
  assert (sp <= sq).
  { destruct sq; simpl in Hle; lia. }
  split; [apply Z.geb_le; assumption | eauto].
Qed.

Lemma mapM_keys_chained run filt :
  chained run ->
  mapM (fun xy => seq_ge (fst xy) (snd xy)) (successive run) = Ok filt ->
  filt = map (fun _ => true) (successive run) /\
  Forall (fun xy => seq_le (snd xy) (fst xy)) (successive run).
Proof.
  unfold chained. generalize (successive run) as pairs.
  intros pairs. revert filt.
  induction pairs as [|[x y] pairs IH]; intros filt Hch H.
  - injection H as <-. split; constructor.
  - simpl in H. inv_bind H. inv_bind H. injection H as <-.
    inversion Hch as [|? ? Hxy Hrest]; subst. simpl in Hxy.
    destruct (linked_seq_ge Hxy Hv) as [-> Hle].
    destruct (IH _ Hrest Hv0) as [-> Hall].
    split; [reflexivity | constructor; assumption].
Qed.

(** On a run as the loop forms it, [mask] has nothing to drop: it returns
    the run, or raises on a missing sequence number. *)
Lemma mask_chained run r :
  chained run -> mask run seq_ge = Ok r ->
  r = run /\ Forall (fun xy => seq_le (snd xy) (fst xy)) (successive run).
Proof.
  intros Hch H. unfold mask in H. inv_bind H. injection H as <-.
  destruct (mapM_keys_chained Hch Hv) as [-> Hall].
  split; [apply compress_all_true | exact Hall].
Qed.

Lemma seq_le_trans p q r : seq_le p q -> seq_le q r -> seq_le p r.
Proof.
  intros (a & b & Ha & Hb & Hab) (b' & c & Hb' & Hc & Hbc).
  exists a, c. repeat split; try assumption. rewrite Hb in Hb'.
  injection Hb' as <-. lia.
Qed.

Lemma consecutive_nondecreasing run :
  Forall (fun xy => seq_le (snd xy) (fst xy)) (successive run) ->
  nondecreasing run.
Proof.
  intros H. pose proof (proj1 (successive_nth seq_le run) H) as Hstep.
  intros i j. revert i. induction j as [|j IH]; intros i p q Hij Hp Hq; [lia|].
  destruct (Nat.eq_dec i j) as [->|Hne].
  - eapply Hstep; eassumption.
  - destruct (nth_error run j) as [m|] eqn:Hm.
    + apply seq_le_trans with m.
      * apply (IH i); [lia | assumption | reflexivity].
      * eapply Hstep; eassumption.
    + apply nth_error_None in Hm.
      assert (nth_error run (S j) <> None) by congruence.
      apply nth_error_Some in H0. lia.
Qed.

Lemma starts_on_on_date date run :
  run <> [] -> starts_on date run = Ok (on_date date run).
Proof. destruct run; [congruence | reflexivity]. Qed.

(** The comprehension over runs formed by the loop. *)
Lemma keep_and_mask_formed date runs out :
  Forall (fun run => run <> []) runs -> Forall chained runs ->
  keep_and_mask date runs = Ok out ->
  out = filter (on_date date) runs /\
  Forall (fun run => nondecreasing run /\ mask run seq_ge = Ok run) out.
Proof.
  revert out. induction runs as [|run runs IH]; intros out Hne Hch H.
  - injection H as <-. split; constructor.
  - inversion Hne as [|? ? Hrun Hne']; subst.
    inversion Hch as [|? ? Hc Hch']; subst.
    simpl in H. rewrite (starts_on_on_date date Hrun) in H. simpl in H.
    simpl filter. destruct (on_date date run).
    + inv_bind H. inv_bind H. injection H as <-.
      destruct (mask_chained Hc Hv) as [Hrun' Hall]. subst v.
      destruct (IH _ Hne' Hch' Hv0) as [-> Hnd].
      split; [reflexivity|]. constructor; [|exact Hnd].
      split; [|exact Hv]. apply consecutive_nondecreasing. exact Hall.
    + apply IH; assumption.
Qed.

Lemma filter_positions_formed cursor date out :
  filter_positions cursor date = Ok out ->
  exists runs, segment cursor None [] = Ok runs /\
    Forall (fun run => run <> []) runs /\
    out = filter (on_date date) runs /\
    Forall (fun run => nondecreasing run /\ mask run seq_ge = Ok run) out.
Proof.
  unfold filter_positions. intros H. inv_bind H. exists v.
  destruct (segment_runs _ Hv) as [Hne Hch].
  destruct (@keep_and_mask_formed date v out Hne Hch H) as [-> Hnd]. auto.
Qed.

End FilterFacts.

Section TimeFacts.

Variable float : Type.
Implicit Types (p q position : Position float) (run : list (Position float)).
Implicit Types (runs : list (list (Position float))).

Lemma starts_new_run_same prev1 prev2 p q :
  prev_rel prev1 prev2 -> same_but_time p q ->
  starts_new_run prev1 p = starts_new_run prev2 q.
Proof.
  intros Hprev (_ & Ht & _ & _ & Hs & _). unfold starts_new_run.
  rewrite Ht, Hs.
  destruct prev1 as [p1|], prev2 as [p2|]; simpl in Hprev; try contradiction.
  - destruct Hprev as (_ & Ht' & _ & _ & Hs' & _). simpl. rewrite Ht', Hs'.
    reflexivity.
  - reflexivity.
Qed.

Lemma append_to_last_same runs1 runs2 p q :
  Forall2 (Forall2 same_but_time) runs1 runs2 -> same_but_time p q ->
  result_rel (Forall2 (Forall2 same_but_time))
    (append_to_last runs1 p) (append_to_last runs2 q).
Proof.
  intros H Hpq. induction H as [|r1 r2 l1 l2 Hr Hl IH]; [reflexivity|].
  simpl. destruct Hl as [|r1' r2' l1' l2' Hr' Hl'].
  - simpl. constructor; [|constructor]. apply Forall2_app; [exact Hr|].
    constructor; [exact Hpq|constructor].
  - destruct (append_to_last (r1' :: l1') p), (append_to_last (r2' :: l2') q);
      simpl in *; try contradiction; [|exact IH].
    constructor; assumption.
Qed.

Lemma segment_same cursor1 cursor2 :
  Forall2 same_but_time cursor1 cursor2 ->
  forall prev1 prev2 runs1 runs2,
    prev_rel prev1 prev2 -> Forall2 (Forall2 same_but_time) runs1 runs2 ->
    result_rel (Forall2 (Forall2 same_but_time))
      (segment cursor1 prev1 runs1) (segment cursor2 prev2 runs2).
Proof.
  induction 1 as [|p q c1 c2 Hpq Hc IH];
    intros prev1 prev2 runs1 runs2 Hprev Hruns.
  - exact Hruns.
  - simpl. rewrite (starts_new_run_same _ _ Hprev Hpq).
    destruct (starts_new_run prev2 q) as [new|e]; simpl; [|reflexivity].
    assert (Hruns' : Forall2 (Forall2 same_but_time)
                       (if new then runs1 ++ [[]] else runs1)
                       (if new then runs2 ++ [[]] else runs2)).
    { destruct new; [|exact Hruns].
      apply Forall2_app; [exact Hruns|]. repeat constructor. }
    pose proof (append_to_last_same Hruns' Hpq) as Happ.
    destruct (append_to_last (if new then runs1 ++ [[]] else runs1) p),
             (append_to_last (if new then runs2 ++ [[]] else runs2) q);
      simpl in *; try contradiction; [|exact Happ].
    apply IH; [exact Hpq | exact Happ].
Qed.

Lemma starts_on_same date run1 run2 :
  Forall2 same_but_time run1 run2 ->
  starts_on date run1 = starts_on date run2.
Proof.
  intros [|p q ? ? (_ & _ & Hd & _) _]; [reflexivity|].
  simpl. rewrite Hd. reflexivity.
Qed.

Lemma keys_same run1 run2 :
  Forall2 same_but_time run1 run2 ->
  mapM (fun xy => seq_ge (fst xy) (snd xy)) (successive run1) =
  mapM (fun xy => seq_ge (fst xy) (snd xy)) (successive run2).
Proof.
  induction 1 as [|p q l1 l2 Hpq Hl IH]; [reflexivity|].
  destruct Hl as [|p' q' l1' l2' Hpq' Hl']; [reflexivity|].
  rewrite !successive_cons2. simpl mapM. rewrite IH.
  destruct Hpq as (_ & _ & _ & _ & Hs & _).
  destruct Hpq' as (_ & _ & _ & _ & Hs' & _).
  unfold seq_ge. simpl. rewrite Hs, Hs'. reflexivity.
Qed.

Lemma compress_same run1 run2 :
  Forall2 same_but_time run1 run2 ->
  forall selectors,
    Forall2 same_but_time (compress run1 selectors) (compress run2 selectors).
Proof.
  induction 1 as [|p q l1 l2 Hpq Hl IH]; intros [|[|] selectors]; simpl;
    try constructor; auto.
Qed.

Lemma mask_same run1 run2 :
  Forall2 same_but_time run1 run2 ->
  result_rel (Forall2 same_but_time) (mask run1 seq_ge) (mask run2 seq_ge).
Proof.
  intros H. unfold mask. rewrite (keys_same H).
  destruct (mapM _ (successive run2)) as [filt|e]; simpl; [|reflexivity].
  apply compress_same. exact H.
Qed.

Lemma keep_and_mask_same date runs1 runs2 :
  Forall2 (Forall2 same_but_time) runs1 runs2 ->
  result_rel (Forall2 (Forall2 same_but_time))
    (keep_and_mask date runs1) (keep_and_mask date runs2).
Proof.
  induction 1 as [|r1 r2 l1 l2 Hr Hl IH]; [constructor|].
  simpl. rewrite (starts_on_same date Hr).
  destruct (starts_on date r2) as [[|]|e]; simpl; [|exact IH|reflexivity].
  pose proof (mask_same Hr) as Hm.
  destruct (mask r1 seq_ge), (mask r2 seq_ge); simpl in *;
    try contradiction; [|exact Hm].
  destruct (keep_and_mask date l1), (keep_and_mask date l2); simpl in *;
    try contradiction; [|exact IH].
  constructor; assumption.
Qed.

Lemma Forall2_lengths (R : Position float -> Position float -> Prop)
    runs1 runs2 :
  Forall2 (Forall2 R) runs1 runs2 ->
  map (@length _) runs1 = map (@length _) runs2.
Proof.
  induction 1 as [|r1 r2 l1 l2 Hr Hl IH]; [reflexivity|].
  simpl. rewrite IH. f_equal. eapply Forall2_length. exact Hr.
Qed.

End TimeFacts.

(** ** [filter_positions] *)

Section FilterClaims.

Variable float : Type.
Implicit Types (p q position : Position float) (run : list (Position float)).
Implicit Types (runs : list (list (Position float))).


(** C7. Of the runs the loop forms, [filter_positions] returns, in order,
    those whose first position has the target service date: a run starting
    on another date is not returned, a run starting on the target date is
    returned, as [mask] leaves it. *)
Theorem filter_positions_service_date
    (cursor : list (Position float)) (date : string) out :
  filter_positions cursor date = Ok out ->
  exists runs, segment cursor None [] = Ok runs /\
    out = filter (on_date date) runs /\
    (forall run p, In run runs -> hd_error run = Some p ->
       isoformat (service_date p) <> date -> ~ In run out) /\
    (forall run p, In run runs -> hd_error run = Some p ->
       isoformat (service_date p) = date ->
       In run out /\ mask run seq_ge = Ok run).
Proof.
  intros H. destruct (filter_positions_formed _ _ H)
    as (runs & Hseg & _ & Hout & Hall).
  exists runs. split; [exact Hseg|]. split; [exact Hout|]. split.
  - intros run p _ Hp Hd Hin. subst out. apply filter_In in Hin.
    destruct Hin as [_ Hon]. destruct run as [|p' run]; [discriminate|].
    injection Hp as ->. simpl in Hon. apply String.eqb_eq in Hon. auto.
  - intros run p Hin Hp Hd.
    assert (Hon : In run out).
    { subst out. apply filter_In. split; [exact Hin|].
      destruct run as [|p' run]; [discriminate|]. injection Hp as ->.
      simpl. apply String.eqb_eq. exact Hd. }
    split; [exact Hon|]. rewrite Forall_forall in Hall.
    apply (Hall run Hon).
Qed.

(** C9. Two streams that agree on everything but the timestamps get the
    same outcome from [filter_positions]: the same exception, or runs that
    agree position by position on everything but the timestamps, hence runs
    of the same lengths.  No elapsed time splits a run. *)
Theorem filter_positions_ignores_time
    (cursor1 cursor2 : list (Position float)) (date : string) :
  Forall2 same_but_time cursor1 cursor2 ->
  result_rel (Forall2 (Forall2 same_but_time))
    (filter_positions cursor1 date) (filter_positions cursor2 date) /\
  fmap (map (@length _)) (filter_positions cursor1 date) =
  fmap (map (@length _)) (filter_positions cursor2 date).
Proof.
  intros H.
  assert (Hrel : result_rel (Forall2 (Forall2 same_but_time))
            (filter_positions cursor1 date) (filter_positions cursor2 date)).
  { unfold filter_positions.
    pose proof (@segment_same float _ _ H None None [] [] I (Forall2_nil _))
      as Hs.
    destruct (segment cursor1 None []), (segment cursor2 None []);
      simpl in *; try contradiction; [|exact Hs].
    apply keep_and_mask_same. exact Hs. }
  split; [exact Hrel|].
  destruct (filter_positions cursor1 date), (filter_positions cursor2 date);
    simpl in *; try contradiction.
  - f_equal. eapply Forall2_lengths. exact Hrel.
  - congruence.
Qed.

End FilterClaims.

Section FilterTotal.

Variable float : Type.
Implicit Types (p q position : Position float) (run : list (Position float)).
Implicit Types (runs : list (list (Position float))).

Lemma mask_complete run :
  Forall complete run -> exists r, mask run seq_ge = Ok r.
Proof.
  intros Hc. unfold mask.
  assert (Hpairs : Forall (fun xy => complete (fst xy) /\ complete (snd xy))
                     (successive run)).
  { rewrite Forall_forall in *. intros [x y] Hin. unfold successive in Hin.
    split; apply Hc; simpl.
    - apply in_combine_l in Hin. destruct run; [contradiction|].
      right. exact Hin.
    - apply in_combine_r in Hin. exact Hin. }
  assert (Hkeys : exists filt,
            mapM (fun xy => seq_ge (fst xy) (snd xy)) (successive run)
            = Ok filt).
  { clear Hc. induction Hpairs as [|[x y] pairs [[_ [sx Hx]] [_ [sy Hy]]] _ IH].
    - eexists. reflexivity.
    - destruct IH as [filt IH]. simpl in *. rewrite IH.
      unfold seq_ge, ge_opt. rewrite Hx, Hy. simpl. eexists. reflexivity. }
  destruct Hkeys as [filt ->]. simpl. eexists. reflexivity.
Qed.

Lemma keep_and_mask_complete date runs :
  Forall (fun run => run <> []) runs -> Forall (Forall complete) runs ->
  exists out, keep_and_mask date runs = Ok out.
Proof.
  induction runs as [|run runs IH]; intros Hne Hc; [eexists; reflexivity|].
  inversion Hne as [|? ? Hrun Hne']; subst.
  inversion Hc as [|? ? Hcr Hc']; subst.
  simpl. rewrite (starts_on_on_date date Hrun). simpl.
  destruct (IH Hne' Hc') as [rest ->].
  destruct (on_date date run); [|eauto].
  destruct (mask_complete Hcr) as [r ->]. simpl. eauto.
Qed.

Lemma segment_complete cursor : forall prev runs,
  Forall complete cursor -> Forall (Forall complete) runs ->
  match prev with None => True | Some p => complete p /\ runs <> [] end ->
  exists out, segment cursor prev runs = Ok out /\ Forall (Forall complete) out.
Proof.
  induction cursor as [|position cursor IH]; intros prev runs Hc Hruns Hprev.
  - exists runs. split; [reflexivity | exact Hruns].
  - inversion Hc as [|? ? Hpos Hc']; subst. simpl.
    assert (Hnew : exists new, starts_new_run prev position = Ok new /\
                     (new = false -> runs <> [])).
    { unfold starts_new_run. destruct Hpos as [[t Ht] _].
      destruct (opt_string_eqb _ _) eqn:E; simpl.
      - apply opt_string_eqb_eq in E. destruct prev as [p|]; simpl in *.
        + destruct Hprev as [[_ [s ->]] Hne]. simpl. eauto.
        + congruence.
      - exists true. split; [reflexivity | discriminate]. }
    destruct Hnew as (new & -> & Hne). simpl.
    assert (Happ : exists init run,
               (if new then runs ++ [[]] else runs) = init ++ [run] /\
               Forall (Forall complete) init /\ Forall complete run).
    { destruct new.
      - exists runs, []. auto.
      - destruct runs as [|r runs _] using rev_ind; [now destruct Hne|].
        apply Forall_app in Hruns. destruct Hruns as [Hi Hr].
        inversion Hr; subst. eauto. }
    destruct Happ as (init & run & -> & Hi & Hr).
    rewrite append_to_last_snoc. simpl. apply IH.
    + exact Hc'.
    + apply Forall_app. split; [exact Hi|]. constructor; [|constructor].
      apply Forall_app. split; [exact Hr|].
      constructor; [exact Hpos|constructor].
    + split; [exact Hpos|]. destruct init; discriminate.
Qed.

(** X1.  On rows that all carry a trip id and a sequence number, as the inner
    joins of [VEHICLE_QUERY] make them, [filter_positions] returns. *)
Lemma filter_positions_returns (cursor : list (Position float)) date :
  Forall complete cursor -> exists out, filter_positions cursor date = Ok out.
Proof.
  intros Hc. unfold filter_positions.
  destruct (@segment_complete cursor None [] Hc (Forall_nil _) I)
    as (runs & Hseg & Hruns).
  rewrite Hseg. simpl. apply keep_and_mask_complete; [|exact Hruns].
  apply (segment_runs _ Hseg).
Qed.

Lemma seq_or_nonzero (s : option Z) :
  s <> Some 0 -> seq_or s (-2) = match s with Some z => z | None => -2 end.
Proof. destruct s as [[| |]|]; simpl; congruence. Qed.

Lemma segment_spec_runs cursor : forall prev init run,
  Forall (fun q => seq q <> Some 0) cursor ->
  segment cursor (Some prev) (init ++ [run]) =
  fmap (fun rest => init ++ rest) (spec_runs prev run cursor).
Proof.
  induction cursor as [|position cursor IH]; intros prev init run Hnz.
  - reflexivity.
  - inversion Hnz as [|? ? Hpos Hnz']; subst. simpl.
    assert (Hnew : starts_new_run (Some prev) position =
                   spec_new_run prev position).
    { unfold starts_new_run, spec_new_run. simpl.
      rewrite (seq_or_nonzero Hpos). reflexivity. }
    rewrite Hnew. destruct (spec_new_run prev position) as [[|]|e]; simpl.
    + rewrite append_to_last_snoc. simpl.
      rewrite (IH position (init ++ [run]) [position] Hnz').
      destruct (spec_runs position [position] cursor); simpl; [|reflexivity].
      rewrite <- app_assoc. reflexivity.
    + rewrite append_to_last_snoc. simpl. apply IH. exact Hnz'.
    + reflexivity.
Qed.

(** Where the stream opens with a trip id and no sequence number is 0, the
    loop cuts the stream as the specification words it. *)
Lemma segment_follows_spec p (cursor : list (Position float)) :
  trip_id p <> None -> Forall (fun q => seq q <> Some 0) cursor ->
  segment (p :: cursor) None [] = spec_runs p [p] cursor.
Proof.
  intros Ht Hnz. simpl. unfold starts_new_run. simpl.
  destruct (trip_id p) as [t|] eqn:E; [|congruence]. simpl.
  pose proof (@segment_spec_runs cursor p [] [p] Hnz) as Hs. simpl in Hs.
  rewrite Hs. destruct (spec_runs p [p] cursor); reflexivity.
Qed.

End FilterTotal.

Section FilterWitnesses.

Import Samples.



Lemma filter_positions_service_date_witness :
  filter_positions [n1; n2; b1; b2] "2017-03-05" = Ok [[b1; b2]] /\
  exists runs, segment [n1; n2; b1; b2] None [] = Ok runs /\
    [[b1; b2]] = filter (on_date "2017-03-05") runs /\
    (forall run p, In run runs -> hd_error run = Some p ->
       isoformat (service_date p) <> "2017-03-05"%string ->
       ~ In run [[b1; b2]]) /\
    (forall run p, In run runs -> hd_error run = Some p ->
       isoformat (service_date p) = "2017-03-05"%string ->
       In run [[b1; b2]] /\ mask run seq_ge = Ok run).
Proof.
  split; [vm_compute; reflexivity|].
  apply (@filter_positions_service_date Q [n1; n2; b1; b2] "2017-03-05").
  vm_compute. reflexivity.
Defined.

Lemma filter_positions_ignores_time_witness :
  Forall2 same_but_time [a1; a2] [a1; a2_late] /\
  result_rel (Forall2 (Forall2 same_but_time))
    (filter_positions [a1; a2] "2017-03-05")
    (filter_positions [a1; a2_late] "2017-03-05") /\
  fmap (map (@length _)) (filter_positions [a1; a2] "2017-03-05") =
  fmap (map (@length _)) (filter_positions [a1; a2_late] "2017-03-05").
Proof.
  assert (H : Forall2 same_but_time [a1; a2] [a1; a2_late]).
  { repeat constructor. }
  split; [exact H|].
  apply (@filter_positions_ignores_time Q [a1; a2] [a1; a2_late]). exact H.
Defined.

(** Two hours, four times [MAX_TIME_BETWEEN_STOPS], lie between the two
    positions of the one run. *)
Lemma two_hours_one_run :
  timestamp a2_late - timestamp a1 = 4 * MAX_TIME_BETWEEN_STOPS /\
  filter_positions [a1; a2_late] "2017-03-05" = Ok [[a1; a2_late]].
Proof. split; vm_compute; reflexivity. Qed.

(** C2. Two positions of one trip, both heading for the stop of sequence
    number 0: the trip id does not change and the number does not go down,
    yet [position.seq or -2] reads the second 0 as -2 and the loop opens a
    new run. *)
Theorem zero_sequence_opens_run :
  trip_id z2 = trip_id z1 /\ seq z1 = Some 0 /\ seq z2 = Some 0 /\
  starts_new_run (Some z1) z2 = Ok true /\
  spec_new_run z1 z2 = Ok false /\
  filter_positions [z1; z2] "2017-03-05" = Ok [[z1]; [z2]].
Proof. repeat split; vm_compute; reflexivity. Qed.

End FilterWitnesses.

(** ** [generate_calls]: the boundary indices *)

Section CallFacts.

Variable K : Kernel.
Implicit Types (stoptimes : list (StopTime (float K))).
Implicit Types (run : list (Position (float K))).
Implicit Types (calls out : list Call).

Lemma stoptime_eqb_seq (a b : StopTime (float K)) :
  stoptime_eqb K a b = true -> stop_seq a = stop_seq b.
Proof.
  unfold stoptime_eqb. rewrite !andb_true_iff.
  intros [[_ H] _]. apply opt_Z_eqb_eq. exact H.
Qed.

Lemma with_seq_from stoptimes s : forall i,
  filter (fun ix => opt_Z_eqb (stop_seq (snd ix)) s)
         (enumerate_from i stoptimes) = [] /\
    first_with_seq i stoptimes s = None /\
    (forall x, In x stoptimes -> stop_seq x <> s)
  \/
  exists k x rest,
    filter (fun ix => opt_Z_eqb (stop_seq (snd ix)) s)
           (enumerate_from i stoptimes) = (i + k, x)%nat :: rest /\
    first_with_seq i stoptimes s = Some (i + k)%nat /\
    stop_seq x = s /\ nth_error stoptimes k = Some x /\
    index_from K i stoptimes (i + k, x)%nat = Ok (i + k)%nat.
Proof.
  induction stoptimes as [|y stoptimes IH]; intros i.
  - left. repeat split. intros x [].
  - simpl. destruct (opt_Z_eqb (stop_seq y) s) eqn:E.
    + right.
      exists 0%nat, y, (filter (fun ix => opt_Z_eqb (stop_seq (snd ix)) s)
                               (enumerate_from (S i) stoptimes)).
      rewrite Nat.add_0_r. simpl. rewrite Nat.eqb_refl. simpl.
      apply opt_Z_eqb_eq in E. auto.
    + destruct (IH (S i))
        as [(Hf & Hn & Hall) | (k & x & rest & Hf & Hn & Hs & Hk & Hi)].
      * left. repeat split; try assumption.
        intros x [<-|Hin]; [|apply Hall; exact Hin].
        intros Hs. apply opt_Z_eqb_eq in Hs. congruence.
      * right. exists (S k), x, rest. rewrite Nat.add_succ_r. simpl in *.
        repeat split; try assumption.
        assert (Hik : Nat.eqb i (S (i + k)) = false)
          by (apply Nat.eqb_neq; lia).
        rewrite Hik. simpl.
        destruct (stoptime_eqb K y x) eqn:Heq; [|exact Hi].
        apply stoptime_eqb_seq in Heq. rewrite Heq, Hs in E.
        assert (opt_Z_eqb s s = true) by (apply opt_Z_eqb_eq; reflexivity).
        congruence.
Qed.

(** [stoptimes.index] finds the very row the comprehension put first: the
    rows before it have another sequence number. *)
Lemma index_of_seq_first stoptimes (p : Position (float K)) :
  index_of_seq K stoptimes (Ok p) =
  match first_with_seq 0 stoptimes (seq p) with
  | Some k => Ok k
  | None => Raise IndexError
  end.
Proof.
  unfold index_of_seq, with_seq. simpl.
  destruct (with_seq_from stoptimes (seq p) 0)
    as [(-> & -> & _) | (k & x & rest & -> & -> & _ & _ & Hi)].
  - reflexivity.
  - simpl in *. exact Hi.
Qed.

Lemma first_with_seq_none stoptimes s :
  (forall x, In x stoptimes -> stop_seq x <> s) ->
  first_with_seq 0 stoptimes s = None.
Proof.
  intros Hall.
  destruct (with_seq_from stoptimes s 0)
    as [(_ & Hn & _) | (k & x & rest & _ & _ & Hs & Hk & _)]; [exact Hn|].
  apply nth_error_In in Hk. destruct (Hall x Hk Hs).
Qed.

Lemma start_index_first run stoptimes :
  start_index K run stoptimes =
  Ok match run with
     | [] => 0%nat
     | p :: _ => match first_with_seq 0 stoptimes (seq p) with
                 | Some k => k
                 | None => 0%nat
                 end
     end.
Proof.
  unfold start_index. destruct run as [|p run]; [reflexivity|].
  change (item (p :: run) 0) with (Ok p). rewrite index_of_seq_first.
  destruct (first_with_seq 0 stoptimes (seq p)); reflexivity.
Qed.

Lemma last_item_Ok run p :
  last_item run = Ok p -> exists init, run = init ++ [p].
Proof.
  destruct run as [|q run _] using rev_ind; [discriminate|].
  unfold last_item, item. destruct (run ++ [q]) eqn:E.
  - destruct run; discriminate.
  - rewrite <- E. rewrite length_app. simpl.
    replace (length run + 1 - 1)%nat with (length run) by lia.
    rewrite nth_error_app2 by lia. rewrite Nat.sub_diag. simpl.
    intros [= ->]. eauto.
Qed.

Lemma last_item_snoc (init : list (Position (float K))) p :
  last_item (init ++ [p]) = Ok p.
Proof.
  unfold last_item, item. destruct (init ++ [p]) eqn:E.
  - destruct init; discriminate.
  - rewrite <- E. rewrite length_app. simpl.
    replace (length init + 1 - 1)%nat with (length init) by lia.
    rewrite nth_error_app2 by lia. rewrite Nat.sub_diag. reflexivity.
Qed.

Lemma end_index_first run stoptimes :
  end_index K run stoptimes =
  Ok match last_item run with
     | Raise _ => length stoptimes
     | Ok p => match first_with_seq 0 stoptimes (seq p) with
               | Some k => k
               | None => length stoptimes
               end
     end.
Proof.
  unfold end_index. destruct run as [|q run _] using rev_ind; [reflexivity|].
  rewrite last_item_snoc, index_of_seq_first.
  destruct (first_with_seq 0 stoptimes (seq q)); reflexivity.
Qed.

Lemma slice_all {A} (l : list A) : slice 0 (length l) l = l.
Proof. unfold slice. simpl. rewrite Nat.sub_0_r. apply firstn_all. Qed.

(** C6. Neither lookup raises.  When no scheduled stop has the sequence
    number of the run's first position, or the run has no first position,
    [si] is 0; when none has the sequence number of the last position, [ei]
    is the length of the schedule; when both lookups fail [generate_calls]
    interpolates the whole schedule and raises nothing of its own. *)
Theorem boundary_indices_default run stoptimes :
  (exists si ei, start_index K run stoptimes = Ok si /\
                 end_index K run stoptimes = Ok ei) /\
  ((forall p, item run 0 = Ok p ->
      forall x, In x stoptimes -> stop_seq x <> seq p) ->
   start_index K run stoptimes = Ok 0%nat) /\
  ((forall p, last_item run = Ok p ->
      forall x, In x stoptimes -> stop_seq x <> seq p) ->
   end_index K run stoptimes = Ok (length stoptimes)) /\
  ((forall p, item run 0 = Ok p ->
      forall x, In x stoptimes -> stop_seq x <> seq p) ->
   (forall p, last_item run = Ok p ->
      forall x, In x stoptimes -> stop_seq x <> seq p) ->
   generate_calls K run stoptimes =
   (interpolated <- np_interp K (map dist_along_shape stoptimes)
                      (map distance run)
                      (map (fun p => to_unix K (timestamp p)) run) ;;
    interpolated_calls K stoptimes 0 (length stoptimes) interpolated)).
Proof.
  assert (Hs : (forall p, item run 0 = Ok p ->
                  forall x, In x stoptimes -> stop_seq x <> seq p) ->
               start_index K run stoptimes = Ok 0%nat).
  { intros H. rewrite start_index_first.
    destruct run as [|p run]; [reflexivity|].
    rewrite (first_with_seq_none stoptimes (H p eq_refl)). reflexivity. }
  assert (He : (forall p, last_item run = Ok p ->
                  forall x, In x stoptimes -> stop_seq x <> seq p) ->
               end_index K run stoptimes = Ok (length stoptimes)).
  { intros H. rewrite end_index_first.
    destruct (last_item run) as [p|e] eqn:E; [|reflexivity].
    rewrite (first_with_seq_none stoptimes (H p eq_refl)). reflexivity. }
  split; [|split; [exact Hs | split; [exact He|]]].
  - rewrite start_index_first, end_index_first. eauto.
  - intros H1 H2. unfold generate_calls. rewrite (Hs H1), (He H2). simpl.
    rewrite <- (length_map dist_along_shape stoptimes) at 1.
    rewrite slice_all.
    destruct (np_interp K _ _ _) as [interpolated|e]; simpl; [|reflexivity].
    destruct (interpolated_calls K stoptimes 0 (length stoptimes) interpolated)
      as [calls|e]; simpl; [|reflexivity].
    destruct calls as [|c calls]; [reflexivity|]. simpl.
    unfold extrapolate_forward, extrapolate_back.
    rewrite Nat.ltb_irrefl. simpl.
    destruct (3 <? length run)%nat; reflexivity.
Qed.

Lemma call_method (stoptime : StopTime (float K)) seconds m c :
  call K stoptime seconds m = Ok c -> method c = method_or_I m.
Proof. unfold call. intros H. inv_bind H. injection H as <-. reflexivity. Qed.

Lemma extrapolated_call_method (cf : coefficients K) stoptimes i m c :
  extrapolated_call K cf stoptimes i m = Ok c ->
  method c = method_or_I (Some m).
Proof.
  unfold extrapolated_call. intros H. inv_bind H. inv_bind H. inv_bind H.
  eapply call_method. exact H.
Qed.

Lemma interpolated_calls_method stoptimes si ei interpolated calls :
  interpolated_calls K stoptimes si ei interpolated = Ok calls ->
  Forall (fun c => method c = "I"%string) calls.
Proof.
  unfold interpolated_calls.
  generalize (combine (slice si ei stoptimes) interpolated) as pairs.
  intros pairs. revert calls.
  induction pairs as [|ss pairs IH]; intros calls H.
  - injection H as <-. constructor.
  - simpl in H. inv_bind H. inv_bind H. injection H as <-.
    constructor; [|apply IH; exact Hv0].
    apply call_method in Hv. exact Hv.
Qed.

Lemma swallow_cases (attempt : result Call) calls add out :
  swallow attempt calls add = Ok out ->
  out = calls \/ exists c, attempt = Ok c /\ out = add c.
Proof.
  unfold swallow. destruct attempt as [c|[]]; intros [= <-]; eauto.
Qed.

Lemma extrapolate_forward_cases obs_distances obs_times stoptimes ei calls out :
  extrapolate_forward K obs_distances obs_times stoptimes ei calls = Ok out ->
  out = calls \/
  exists c, out = calls ++ [c] /\ method c = "E"%string.
Proof.
  unfold extrapolate_forward. destruct (ei <? length stoptimes)%nat.
  - intros H. inv_bind H.
    destruct (swallow_cases _ _ _ H) as [->|(c & Hc & ->)]; [auto|].
    right. exists c. split; [reflexivity|].
    apply extrapolated_call_method in Hc. exact Hc.
  - intros [= <-]. auto.
Qed.

Lemma extrapolate_back_cases obs_distances obs_times stoptimes si calls out :
  extrapolate_back K obs_distances obs_times stoptimes si calls = Ok out ->
  out = calls \/
  exists c, out = c :: calls /\ method c = "S"%string.
Proof.
  unfold extrapolate_back. destruct (0 <? si)%nat.
  - intros H. inv_bind H.
    destruct (swallow_cases _ _ _ H) as [->|(c & Hc & ->)]; [auto|].
    right. exists c. split; [reflexivity|].
    apply extrapolated_call_method in Hc. exact Hc.
  - intros [= <-]. auto.
Qed.

(** What [generate_calls] returns: nothing, or the interpolated calls with
    at most one call in front and at most one behind. *)
Lemma generate_calls_shape run stoptimes out :
  generate_calls K run stoptimes = Ok out ->
  out = [] \/
  exists si ei interpolated calls front back,
    start_index K run stoptimes = Ok si /\
    end_index K run stoptimes = Ok ei /\
    np_interp K (slice si ei (map dist_along_shape stoptimes))
      (map distance run) (map (fun p => to_unix K (timestamp p)) run)
      = Ok interpolated /\
    interpolated_calls K stoptimes si ei interpolated = Ok calls /\
    calls <> [] /\ out = front ++ calls ++ back /\
    (front = [] \/ exists c, front = [c] /\ method c = "S"%string) /\
    (back = [] \/ exists c, back = [c] /\ method c = "E"%string) /\
    ((length run <= 3)%nat -> front = [] /\ back = []).
Proof.
  unfold generate_calls. intros H.
  apply bind_Ok in H. destruct H as (si & Hsi & H).
  apply bind_Ok in H. destruct H as (ei & Hei & H).
  apply bind_Ok in H. destruct H as (interpolated & Hint & H).
  apply bind_Ok in H. destruct H as (calls & Hcalls & H).
  destruct (length calls =? 0)%nat eqn:Hlen; [injection H as <-; auto|].
  right. exists si, ei, interpolated, calls.
  assert (Hne : calls <> []).
  { intros ->. discriminate. }
  destruct (3 <? length run)%nat eqn:Hrun.
  - apply bind_Ok in H. destruct H as (calls' & Hf & Hb).
    apply extrapolate_forward_cases in Hf. apply extrapolate_back_cases in Hb.
    apply Nat.ltb_lt in Hrun.
    destruct Hb as [->|(cS & -> & HS)], Hf as [->|(cE & -> & HE)].
    + exists [], []. rewrite app_nil_r. repeat split; eauto; intros; lia.
    + exists [], [cE]. repeat split; eauto; intros; lia.
    + exists [cS], []. rewrite app_nil_r. repeat split; eauto; intros; lia.
    + exists [cS], [cE]. repeat split; eauto; intros; lia.
  - injection H as <-. exists [], []. rewrite app_nil_r. repeat split; auto.
Qed.

(** C10. A list [generate_calls] returns is the interpolated calls, all of
    method 'I', with at most one call of method 'S' in front of them and at
    most one call of method 'E' behind them; when the list is not empty there
    is an interpolated call. *)
Theorem generate_calls_methods run stoptimes out :
  generate_calls K run stoptimes = Ok out ->
  exists front mid back,
    out = front ++ mid ++ back /\
    Forall (fun c => method c = "I"%string) mid /\
    (front = [] \/ exists c, front = [c] /\ method c = "S"%string) /\
    (back = [] \/ exists c, back = [c] /\ method c = "E"%string) /\
    (out <> [] -> mid <> []).
Proof.
  intros H. destruct (generate_calls_shape _ _ H)
    as [->|(si & ei & interpolated & calls & front & back & _ & _ & _
            & Hcalls & Hne & -> & Hf & Hb & _)].
  - exists [], [], []. repeat split; auto.
  - exists front, calls, back. repeat split; auto.
    eapply interpolated_calls_method. exact Hcalls.
Qed.


Lemma generate_calls_after_interp run stoptimes si ei interpolated calls :
  start_index K run stoptimes = Ok si ->
  end_index K run stoptimes = Ok ei ->
  np_interp K (slice si ei (map dist_along_shape stoptimes))
    (map distance run) (map (fun p => to_unix K (timestamp p)) run)
    = Ok interpolated ->
  interpolated_calls K stoptimes si ei interpolated = Ok calls ->
  generate_calls K run stoptimes =
  if (length calls =? 0)%nat then Ok []
  else if (3 <? length run)%nat then
    calls' <- extrapolate_forward K (map distance run)
                (map (fun p => to_unix K (timestamp p)) run)
                stoptimes ei calls ;;
    extrapolate_back K (map distance run)
      (map (fun p => to_unix K (timestamp p)) run) stoptimes si calls'
  else Ok calls.
Proof.
  intros Hsi Hei Hint Hcalls. unfold generate_calls.
  rewrite Hsi, Hei. simpl. rewrite Hint. simpl. rewrite Hcalls. reflexivity.
Qed.

Lemma extrapolate_forward_success obs_distances obs_times stoptimes ei calls
    cf cE :
  (ei < length stoptimes)%nat ->
  np_polyfit K (last_n 3 obs_distances) (last_n 3 obs_times) = Ok cf ->
  extrapolated_call K cf stoptimes ei "E" = Ok cE ->
  extrapolate_forward K obs_distances obs_times stoptimes ei calls
  = Ok (calls ++ [cE]).
Proof.
  intros Hlt Hfit Hc. unfold extrapolate_forward.
  apply Nat.ltb_lt in Hlt. rewrite Hlt, Hfit. simpl. rewrite Hc. reflexivity.
Qed.

Lemma extrapolate_back_success obs_distances obs_times stoptimes si calls
    cb cS :
  (0 < si)%nat ->
  np_polyfit K (firstn 3 obs_distances) (firstn 3 obs_times) = Ok cb ->
  extrapolated_call K cb stoptimes si "S" = Ok cS ->
  extrapolate_back K obs_distances obs_times stoptimes si calls
  = Ok (cS :: calls).
Proof.
  intros Hlt Hfit Hc. unfold extrapolate_back.
  apply Nat.ltb_lt in Hlt. rewrite Hlt, Hfit. simpl. rewrite Hc. reflexivity.
Qed.

(** C5, as the code has it.  Take the calls the interpolation gave.  When
    there is none, the empty list is returned, whatever the length of the
    run.  With at most 3 positions the interpolated calls are returned as
    they are.  With more than 3 positions and at least one interpolated
    call: where [ei] lies within the schedule and the fit over the last
    three positions evaluates to a call, that call, of method 'E', ends the
    returned list; where [si > 0] and the fit over the first three positions
    evaluates to a call, that call, of method 'S', opens the returned
    list. *)
Theorem extrapolation_gate run stoptimes si ei interpolated calls :
  start_index K run stoptimes = Ok si ->
  end_index K run stoptimes = Ok ei ->
  np_interp K (slice si ei (map dist_along_shape stoptimes))
    (map distance run) (map (fun p => to_unix K (timestamp p)) run)
    = Ok interpolated ->
  interpolated_calls K stoptimes si ei interpolated = Ok calls ->
  let obs_distances := map distance run in
  let obs_times := map (fun p => to_unix K (timestamp p)) run in
  let fit_last :=
    np_polyfit K (last_n 3 obs_distances) (last_n 3 obs_times) in
  let fit_first :=
    np_polyfit K (firstn 3 obs_distances) (firstn 3 obs_times) in
  (calls = [] -> generate_calls K run stoptimes = Ok []) /\
  ((length run <= 3)%nat ->
     generate_calls K run stoptimes = Ok calls /\
     Forall (fun c => method c = "I"%string) calls) /\
  ((3 < length run)%nat -> calls <> [] ->
     (forall cf cE,
        (ei < length stoptimes)%nat -> fit_last = Ok cf ->
        extrapolated_call K cf stoptimes ei "E" = Ok cE ->
        method cE = "E"%string /\
        (forall out, generate_calls K run stoptimes = Ok out ->
           exists front, out = front ++ [cE]) /\
        (si = 0%nat -> generate_calls K run stoptimes = Ok (calls ++ [cE]))) /\
     (forall cb cS,
        (0 < si)%nat -> fit_first = Ok cb ->
        extrapolated_call K cb stoptimes si "S" = Ok cS ->
        method cS = "S"%string /\
        (forall out, generate_calls K run stoptimes = Ok out ->
           exists back, out = cS :: back) /\
        ((length stoptimes <= ei)%nat ->
           generate_calls K run stoptimes = Ok (cS :: calls))) /\
     (forall cf cE cb cS,
        (ei < length stoptimes)%nat -> fit_last = Ok cf ->
        extrapolated_call K cf stoptimes ei "E" = Ok cE ->
        (0 < si)%nat -> fit_first = Ok cb ->
        extrapolated_call K cb stoptimes si "S" = Ok cS ->
        generate_calls K run stoptimes = Ok (cS :: calls ++ [cE]))).
Proof.
  intros Hsi Hei Hint Hcalls obs_distances obs_times fit_last fit_first.
  pose proof (@generate_calls_after_interp run stoptimes si ei interpolated
                calls Hsi Hei Hint Hcalls) as Hg.
  fold obs_distances obs_times in Hg. split; [|split].
  - intros ->. exact Hg.
  - intros Hlen. apply Nat.ltb_ge in Hlen. rewrite Hlen in Hg.
    split; [|eapply interpolated_calls_method; exact Hcalls].
    rewrite Hg. destruct calls; reflexivity.
  - intros Hlen Hne. apply Nat.ltb_lt in Hlen. rewrite Hlen in Hg.
    assert (Hnil : (length calls =? 0)%nat = false).
    { destruct calls; [congruence | reflexivity]. }
    rewrite Hnil in Hg. split; [|split].
    + intros cf cE Hlt Hfit HcE.
      pose proof (@extrapolate_forward_success obs_distances obs_times
                    stoptimes ei calls cf cE Hlt Hfit HcE) as Hf.
      rewrite Hf in Hg. simpl in Hg. split; [|split].
      * apply extrapolated_call_method in HcE. exact HcE.
      * intros out Hout. rewrite Hg in Hout.
        apply extrapolate_back_cases in Hout.
        destruct Hout as [->|(c & -> & _)].
        -- exists calls. reflexivity.
        -- exists (c :: calls). reflexivity.
      * intros ->. rewrite Hg. reflexivity.
    + intros cb cS Hlt Hfit HcS. split; [|split].
      * apply extrapolated_call_method in HcS. exact HcS.
      * intros out Hout. rewrite Hg in Hout.
        apply bind_Ok in Hout. destruct Hout as (calls' & _ & Hb).
        rewrite (@extrapolate_back_success obs_distances obs_times
                   stoptimes si calls' cb cS Hlt Hfit HcS) in Hb.
        injection Hb as <-. eauto.
      * intros Hge. rewrite Hg. unfold extrapolate_forward.
        apply Nat.ltb_ge in Hge. rewrite Hge. simpl.
        eapply extrapolate_back_success; eassumption.
    + intros cf cE cb cS Hlt Hfit HcE Hlt' Hfit' HcS. rewrite Hg.
      rewrite (@extrapolate_forward_success obs_distances obs_times
                 stoptimes ei calls cf cE Hlt Hfit HcE). simpl.
      eapply extrapolate_back_success; eassumption.
Qed.

End CallFacts.

(** ** The exact kernel *)

Module ExactFacts.

Import Exact.
Local Open Scope Q_scope.

Lemma Qlt_bool_iff (a b : Q) : Qlt_bool a b = true <-> a < b.
Proof.
  unfold Qlt_bool. rewrite negb_true_iff. split.
  - intros H. apply Qnot_le_lt. intros Hle.
    apply Qle_bool_iff in Hle. congruence.
  - intros H. destruct (Qle_bool b a) eqn:E; [|reflexivity].
    apply Qle_bool_iff in E. apply Qlt_not_le in H. contradiction.
Qed.

Lemma Qlt_bool_false (a b : Q) : Qlt_bool a b = false <-> b <= a.
Proof.
  unfold Qlt_bool. rewrite negb_false_iff. apply Qle_bool_iff.
Qed.

(** On a segment that goes up, the interpolant goes up and stays between
    the two ordinates. *)
Lemma segment_monotone (x0 y0 x1 y1 a b : Q) :
  x0 < x1 -> y0 <= y1 -> x0 <= a -> a <= b -> b <= x1 ->
  let slope := (y1 - y0) / (x1 - x0) in
  y0 <= slope * (a - x0) + y0 /\
  slope * (a - x0) + y0 <= slope * (b - x0) + y0 /\
  slope * (b - x0) + y0 <= y1.
Proof.
  intros Hx Hy Ha Hab Hb slope.
  assert (Hs : slope * (x1 - x0) == y1 - y0).
  { unfold slope. field. lra. }
  assert (H0 : 0 <= slope).
  { unfold slope. apply Qle_shift_div_l; lra. }
  repeat split; nra.
Qed.

Lemma interp_from_lower (rest : list (Q * Q)) : forall x x0 y0,
  ascending x0 y0 rest -> x0 <= x -> y0 <= interp_from x x0 y0 rest.
Proof.
  induction rest as [|[x1 y1] rest IH]; intros x x0 y0 Hasc Hx; simpl.
  - lra.
  - destruct Hasc as (Hx01 & Hy01 & Hasc).
    destruct (Qlt_bool x x1) eqn:E.
    + apply Qlt_bool_iff in E. destruct (Qeq_bool x x0); [lra|].
      apply (segment_monotone (x0:=x0) (y0:=y0) (x1:=x1) (y1:=y1)
               (a:=x) (b:=x)); lra.
    + apply Qlt_bool_false in E. specialize (IH x x1 y1 Hasc E). lra.
Qed.

Lemma interp_from_monotone (rest : list (Q * Q)) : forall x x' x0 y0,
  ascending x0 y0 rest -> x0 <= x -> x <= x' ->
  interp_from x x0 y0 rest <= interp_from x' x0 y0 rest.
Proof.
  induction rest as [|[x1 y1] rest IH]; intros x x' x0 y0 Hasc Hx Hxx'; simpl.
  - lra.
  - destruct Hasc as (Hx01 & Hy01 & Hasc).
    destruct (Qlt_bool x x1) eqn:E.
    + apply Qlt_bool_iff in E.
      assert (Hlt : x0 < x1) by lra.
      destruct (Qlt_bool x' x1) eqn:E'.
      * apply Qlt_bool_iff in E'.
        destruct (segment_monotone (a:=x) (b:=x') Hlt Hy01) as (H1 & H2 & H3);
          try lra.
        destruct (Qeq_bool x x0) eqn:Q0; destruct (Qeq_bool x' x0) eqn:Q0'.
        -- lra.
        -- destruct (segment_monotone (a:=x') (b:=x') Hlt Hy01) as (H4 & _);
             lra.
        -- apply Qeq_bool_iff in Q0'. apply Qeq_bool_neq in Q0. lra.
        -- exact H2.
      * apply Qlt_bool_false in E'.
        pose proof (@interp_from_lower rest x' x1 y1 Hasc E') as Hlow.
        destruct (segment_monotone (a:=x) (b:=x) Hlt Hy01) as (H1 & _ & H3);
          try lra.
        destruct (Qeq_bool x x0); lra.
    + apply Qlt_bool_false in E.
      assert (E' : Qlt_bool x' x1 = false) by (apply Qlt_bool_false; lra).
      rewrite E'. apply IH; [exact Hasc | exact E | exact Hxx'].
Qed.

(** [np.interp] over samples that go up is a non-decreasing function. *)
Lemma interp_at_monotone (samples : list (Q * Q)) (x x' : Q) :
  ascending_samples samples -> x <= x' ->
  interp_at samples x <= interp_at samples x'.
Proof.
  destruct samples as [|[x0 y0] rest]; simpl; intros Hasc Hxx'; [lra|].
  destruct (Qlt_bool x x0) eqn:E; destruct (Qlt_bool x' x0) eqn:E'.
  - lra.
  - apply Qlt_bool_false in E'. apply interp_from_lower; assumption.
  - apply Qlt_bool_iff in E'. apply Qlt_bool_false in E. lra.
  - apply Qlt_bool_false in E. apply interp_from_monotone; assumption.
Qed.

Lemma round_half_even_bounds (q : Q) :
  (Qfloor q <= round_half_even q <= Qfloor q + 1)%Z.
Proof.
  unfold round_half_even.
  destruct (Qcompare _ _); [destruct (Z.even _)| |]; lia.
Qed.

Lemma round_half_even_monotone (q q' : Q) :
  q <= q' -> (round_half_even q <= round_half_even q')%Z.
Proof.
  intros Hle. pose proof (Qfloor_resp_le _ _ Hle) as Hf.
  destruct (Z.eq_dec (Qfloor q) (Qfloor q')) as [Heq|Hne].
  - unfold round_half_even. rewrite <- Heq.
    destruct (Qcompare_spec (q - inject_Z (Qfloor q)) (1 # 2)) as [H|H|H];
      destruct (Qcompare_spec (q' - inject_Z (Qfloor q)) (1 # 2)) as [H'|H'|H'];
      try lia; try lra; destruct (Z.even (Qfloor q)); lia.
  - pose proof (round_half_even_bounds q).
    pose proof (round_half_even_bounds q').
    lia.
Qed.

Lemma round_half_even_comp (q q' : Q) :
  q == q' -> round_half_even q = round_half_even q'.
Proof.
  intros H. apply Z.le_antisymm; apply round_half_even_monotone; lra.
Qed.

End ExactFacts.

Module ExactCalls.

Import Exact ExactFacts.

Section AnyDegenerateFit.

Variable degenerate : list Q -> list Q -> result (list Q).


Lemma mapM_total {A B} (f : A -> B) (l : list A) :
  mapM (fun a => Ok (f a)) l = Ok (map f l).
Proof.
  induction l as [|a l IH]; [reflexivity|]. simpl. rewrite IH. reflexivity.
Qed.

Lemma combine_map_both {A B C} (f : A -> B) (g : B -> C) (l : list A) :
  combine l (map g (map f l)) = map (fun a => (a, g (f a))) l.
Proof.
  induction l as [|a l IH]; [reflexivity|]. simpl. rewrite IH. reflexivity.
Qed.

Lemma slice_map {A B} (f : A -> B) (i j : nat) (l : list A) :
  slice i j (map f l) = map f (slice i j l).
Proof. unfold slice. rewrite skipn_map, firstn_map. reflexivity. Qed.

Lemma nth_error_slice {A} (i j k : nat) (l : list A) :
  (i <= k < j)%nat -> nth_error (slice i j l) (k - i) = nth_error l k.
Proof.
  intros H. unfold slice. rewrite nth_error_firstn.
  assert (Hlt : (k - i <? j - i)%nat = true) by (apply Nat.ltb_lt; lia).
  rewrite Hlt, nth_error_skipn. f_equal. lia.
Qed.

(** Under the exact kernel the interpolation of a run that is not empty
    raises nothing. *)
Lemma exact_interpolation (run : list (Position Q))
    (stoptimes : list (StopTime Q)) (si ei : nat) :
  run <> [] ->
  let interpolated :=
    map (interp_at (exact_samples run))
        (slice si ei (map dist_along_shape stoptimes)) in
  np_interp (kernel_with degenerate)
    (slice si ei (map dist_along_shape stoptimes)) (map distance run)
    (map (fun p => to_unix (kernel_with degenerate) (timestamp p)) run)
    = Ok interpolated /\
  interpolated_calls (kernel_with degenerate) stoptimes si ei interpolated
    = Ok (map (exact_interpolated_call (exact_samples run))
              (slice si ei stoptimes)).
Proof.
  intros Hrun interpolated. split.
  - simpl. unfold interp. rewrite !length_map.
    destruct run; [congruence|]. simpl. rewrite Nat.eqb_refl. reflexivity.
  - unfold interpolated_calls, interpolated. rewrite slice_map.
    rewrite combine_map_both.
    rewrite <- (mapM_total (exact_interpolated_call (exact_samples run))).
    generalize (slice si ei stoptimes) as l.
    induction l as [|s l IH]; [reflexivity|]. simpl in *. rewrite IH.
    reflexivity.
Qed.

(** What [generate_calls] returns for a run that is not empty, up to the
    extrapolation. *)
Lemma exact_generate_calls (run : list (Position Q))
    (stoptimes : list (StopTime Q)) (out : list Call) :
  generate_calls (kernel_with degenerate) run stoptimes = Ok out ->
  out = [] \/
  exists si ei front back,
    start_index (kernel_with degenerate) run stoptimes = Ok si /\
    end_index (kernel_with degenerate) run stoptimes = Ok ei /\
    out = front
          ++ map (exact_interpolated_call (exact_samples run))
                 (slice si ei stoptimes)
          ++ back /\
    (front = [] \/ exists c, front = [c] /\ method c = "S"%string) /\
    (back = [] \/ exists c, back = [c] /\ method c = "E"%string).
Proof.
  intros H. destruct (generate_calls_shape _ _ _ H)
    as [->|(si & ei & interpolated & calls & front & back & Hsi & Hei & Hint
            & Hcalls & Hne & -> & Hf & Hb & _)]; [auto|].
  right. exists si, ei, front, back.
  assert (Hrun : run <> []).
  { intros ->. simpl in Hint. discriminate. }
  destruct (exact_interpolation stoptimes si ei Hrun) as [Hint' Hcalls'].
  assert (E : Ok interpolated
              = Ok (map (interp_at (exact_samples run))
                        (slice si ei (map dist_along_shape stoptimes)))).
  { etransitivity; [symmetry; exact Hint | exact Hint']. }
  injection E as ->.
  assert (E : Ok calls
              = Ok (map (exact_interpolated_call (exact_samples run))
                        (slice si ei stoptimes))).
  { etransitivity; [symmetry; exact Hcalls | exact Hcalls']. }
  injection E as ->. auto.
Qed.

Local Open Scope Q_scope.

Lemma interp_colinear (d0 d1 d2 x : Q) :
  d0 == 0 -> d1 == 50 -> d2 == 100 -> x == 25 ->
  interp_at [(d0, 0 # 1000000); (d1, 50000000 # 1000000);
             (d2, 100000000 # 1000000)] x == 25.
Proof.
  intros H0 H1 H2 Hx. unfold interp_at.
  assert (E0 : Qlt_bool x d0 = false) by (apply Qlt_bool_false; lra).
  rewrite E0. simpl interp_from.
  assert (E1 : Qlt_bool x d1 = true) by (apply Qlt_bool_iff; lra).
  rewrite E1.
  assert (E2 : Qeq_bool x d0 = false).
  { destruct (Qeq_bool x d0) eqn:E; [|reflexivity].
    apply Qeq_bool_iff in E. lra. }
  rewrite E2. rewrite H0, H1, Hx. reflexivity.
Qed.

(** C8. Three positions at distances 0, 50 and 100, seen at 0 s, 50 s and
    100 s, and a scheduled stop at distance 25 whose place [k] lies in
    [si, ei): [generate_calls] returns, and the call at place [k - si] is the
    call of that stop, at 25 s after the epoch, of method 'I'. *)
Theorem colinear_interpolation (p0 p1 p2 : Position Q)
    (stoptimes : list (StopTime Q)) (si ei k : nat) (stoptime : StopTime Q) :
  distance p0 == 0 -> distance p1 == 50 -> distance p2 == 100 ->
  timestamp p0 = 0%Z -> timestamp p1 = 50000000%Z ->
  timestamp p2 = 100000000%Z ->
  start_index (kernel_with degenerate) [p0; p1; p2] stoptimes = Ok si ->
  end_index (kernel_with degenerate) [p0; p1; p2] stoptimes = Ok ei ->
  (si <= k < ei)%nat -> nth_error stoptimes k = Some stoptime ->
  dist_along_shape stoptime == 25 ->
  exists calls,
    generate_calls (kernel_with degenerate) [p0; p1; p2] stoptimes = Ok calls /\
    nth_error calls (k - si) =
    Some (mkCall (route_id stoptime) (direction_id stoptime)
                 (stop_id stoptime) 25000000%Z "I").
Proof.
  intros H0 H1 H2 T0 T1 T2 Hsi Hei Hk Hstop Hd.
  assert (Hrun : [p0; p1; p2] <> []) by discriminate.
  destruct (exact_interpolation stoptimes si ei Hrun) as [Hint Hcalls].
  set (calls := map (exact_interpolated_call (exact_samples [p0; p1; p2]))
                    (slice si ei stoptimes)) in *.
  assert (Hnth : nth_error calls (k - si) =
                 Some (exact_interpolated_call (exact_samples [p0; p1; p2])
                         stoptime)).
  { unfold calls. rewrite nth_error_map, nth_error_slice by exact Hk.
    rewrite Hstop. reflexivity. }
  assert (Hne : calls <> []).
  { intros E. rewrite E in Hnth. destruct (k - si)%nat; discriminate. }
  exists calls. split.
  - rewrite (generate_calls_after_interp (kernel_with degenerate) _ _
               Hsi Hei Hint Hcalls).
    destruct calls; [congruence | reflexivity].
  - rewrite Hnth. unfold exact_interpolated_call. do 2 f_equal.
    transitivity (round_half_even (25 * 1000000)); [|reflexivity].
    apply round_half_even_comp. apply Qmult_comp; [|reflexivity].
    unfold exact_samples. simpl. rewrite T0, T1, T2.
    apply interp_colinear; assumption.
Qed.

Lemma StronglySorted_skipn {A} (R : A -> A -> Prop) (n : nat) : forall l,
  StronglySorted R l -> StronglySorted R (skipn n l).
Proof.
  induction n as [|n IH]; intros l H; [exact H|].
  destruct l as [|a l]; [exact H|]. simpl. apply IH.
  apply StronglySorted_inv in H. apply H.
Qed.

Lemma StronglySorted_firstn {A} (R : A -> A -> Prop) (n : nat) : forall l,
  StronglySorted R l -> StronglySorted R (firstn n l).
Proof.
  induction n as [|n IH]; intros l H; [constructor|].
  destruct l as [|a l]; [constructor|]. simpl.
  apply StronglySorted_inv in H. destruct H as [Hl Ha].
  constructor; [apply IH; exact Hl|].
  rewrite Forall_forall in *. intros x Hx. apply Ha.
  rewrite <- (firstn_skipn n l). apply in_or_app. left. exact Hx.
Qed.

Lemma StronglySorted_map_monotone {A} (g : A -> Q) (h : Q -> Z) (l : list A) :
  (forall a b, a <= b -> (h a <= h b)%Z) ->
  StronglySorted Qle (map g l) ->
  StronglySorted Z.le (map (fun s => h (g s)) l).
Proof.
  intros Hh. induction l as [|s l IH]; intros H; [constructor|].
  simpl in *. apply StronglySorted_inv in H. destruct H as [Hl Hs].
  constructor; [apply IH; exact Hl|].
  rewrite Forall_forall in *. intros z Hz. apply in_map_iff in Hz.
  destruct Hz as (s' & <- & Hin). apply Hh. apply Hs.
  apply in_map. exact Hin.
Qed.

Lemma total_seconds_monotone (a b : Z) :
  (a <= b)%Z ->
  to_unix (kernel_with degenerate) a <= to_unix (kernel_with degenerate) b.
Proof.
  intros H. unfold to_unix. simpl. unfold total_seconds, EPOCH, Qle. simpl.
  lia.
Qed.

Lemma exact_samples_ascending (run : list (Position Q)) :
  Sorted Qle (map distance run) -> Sorted Z.le (map timestamp run) ->
  ascending_samples (exact_samples run).
Proof.
  destruct run as [|p run]; [constructor|]. revert p.
  induction run as [|q run IH]; intros p Hd Ht; [constructor|].
  apply Sorted_inv in Hd. destruct Hd as [Hd Hpq].
  apply Sorted_inv in Ht. destruct Ht as [Ht Tpq].
  apply HdRel_inv in Hpq. apply HdRel_inv in Tpq.
  specialize (IH q Hd Ht).
  unfold exact_samples in *. simpl in *.
  repeat split;
    [exact Hpq | apply total_seconds_monotone; exact Tpq | exact IH].
Qed.

Lemma interpolated_only_app (l l' : list Call) :
  interpolated_only (l ++ l') = interpolated_only l ++ interpolated_only l'.
Proof. apply filter_app. Qed.

Lemma interpolated_only_exact (samples : list (Q * Q)) (l : list (StopTime Q)) :
  interpolated_only (map (exact_interpolated_call samples) l)
  = map (exact_interpolated_call samples) l.
Proof.
  induction l as [|s l IH]; [reflexivity|].
  unfold interpolated_only in *. simpl. rewrite IH. reflexivity.
Qed.

(** C3, as the code has it.  Where the distances and the timestamps of the
    run never go down along the run and the distances of the scheduled stops
    never go down along the schedule, the timestamps of the calls of method
    'I' that [generate_calls] returns never go down along the list. *)
Theorem interpolated_calls_nondecreasing (run : list (Position Q))
    (stoptimes : list (StopTime Q)) (out : list Call) :
  Sorted Qle (map distance run) ->
  Sorted Z.le (map timestamp run) ->
  Sorted Qle (map dist_along_shape stoptimes) ->
  generate_calls (kernel_with degenerate) run stoptimes = Ok out ->
  StronglySorted Z.le (map call_timestamp (interpolated_only out)).
Proof.
  intros Hd Ht Hs H.
  destruct (exact_generate_calls _ _ H)
    as [->|(si & ei & front & back & _ & _ & -> & Hf & Hb)]; [constructor|].
  rewrite !interpolated_only_app, interpolated_only_exact.
  assert (Ef : interpolated_only front = []).
  { destruct Hf as [->|(c & -> & Hc)]; [reflexivity|].
    unfold interpolated_only. simpl. rewrite Hc. reflexivity. }
  assert (Eb : interpolated_only back = []).
  { destruct Hb as [->|(c & -> & Hc)]; [reflexivity|].
    unfold interpolated_only. simpl. rewrite Hc. reflexivity. }
  rewrite Ef, Eb, app_nil_r. simpl. rewrite map_map.
  unfold exact_interpolated_call. simpl.
  apply (StronglySorted_map_monotone (@dist_along_shape Q)
           (fun x => round_half_even
                       (interp_at (exact_samples run) x * 1000000))).
  - intros a b Hab. apply round_half_even_monotone.
    apply Qmult_le_compat_r; [|discriminate].
    apply interp_at_monotone; [|exact Hab].
    apply exact_samples_ascending; assumption.
  - rewrite <- slice_map. unfold slice.
    apply StronglySorted_firstn, StronglySorted_skipn.
    apply Sorted_StronglySorted; [|exact Hs].
    intros x y z. apply Qle_trans.
Qed.

End AnyDegenerateFit.

End ExactCalls.

(** ** What the [try] blocks catch *)

Section Swallowed.

Variable K : Kernel.

(** A [ValueError] or a [TypeError] raised while the fitted line is
    evaluated or the call is built leaves the calls as they were. *)
Lemma extrapolate_forward_swallows obs_distances obs_times
    (stoptimes : list (StopTime (float K))) ei calls cf e :
  np_polyfit K (last_n 3 obs_distances) (last_n 3 obs_times) = Ok cf ->
  extrapolated_call K cf stoptimes ei "E" = Raise e ->
  e = ValueError \/ e = TypeError ->
  extrapolate_forward K obs_distances obs_times stoptimes ei calls = Ok calls.
Proof.
  intros Hfit Hc He. unfold extrapolate_forward.
  destruct (ei <? length stoptimes)%nat; [|reflexivity].
  rewrite Hfit. simpl. rewrite Hc. destruct He as [->| ->]; reflexivity.
Qed.

(** [np.polyfit] is called before the [try]: what it raises reaches the
    caller. *)
Lemma extrapolate_forward_fit_raises obs_distances obs_times
    (stoptimes : list (StopTime (float K))) ei calls e :
  (ei < length stoptimes)%nat ->
  np_polyfit K (last_n 3 obs_distances) (last_n 3 obs_times) = Raise e ->
  extrapolate_forward K obs_distances obs_times stoptimes ei calls = Raise e.
Proof.
  intros Hlt Hfit. unfold extrapolate_forward.
  apply Nat.ltb_lt in Hlt. rewrite Hlt, Hfit. reflexivity.
Qed.

End Swallowed.

(** ** [generate_calls] on the sample runs *)

Module CallSamples.

Import Samples Exact.

Lemma Sorted_Qle_cons (a b : Q) (l : list Q) :
  Qle_bool a b = true -> Sorted Qle (b :: l) -> Sorted Qle (a :: b :: l).
Proof.
  intros H S. constructor; [exact S|]. constructor.
  apply Qle_bool_iff. exact H.
Qed.

Lemma Sorted_Zle_cons (a b : Z) (l : list Z) :
  (a <=? b) = true -> Sorted Z.le (b :: l) -> Sorted Z.le (a :: b :: l).
Proof.
  intros H S. constructor; [exact S|]. constructor.
  apply Z.leb_le. exact H.
Qed.

Ltac sorted :=
  simpl;
  repeat first [ apply Sorted_Qle_cons; [reflexivity|]
               | apply Sorted_Zle_cons; [reflexivity|] ];
  repeat constructor.

(** C3 fails as stated.  Along [run_c] distances and timestamps go up, along
    [schedule_c] the distances go up, and the call extrapolated forward, for
    the last stop, is timed 37.17 s, before the 40 s of the interpolated call
    that precedes it. *)
Lemma extrapolated_call_out_of_order :
  Sorted Qle (map distance run_c) /\
  Sorted Z.le (map timestamp run_c) /\
  Sorted Qle (map dist_along_shape schedule_c) /\
  generate_calls kernel run_c schedule_c = Ok calls_c /\
  map call_timestamp calls_c = [5000000; 40000000; 37166667] /\
  map method calls_c = ["I"; "I"; "E"]%string /\
  ~ Sorted Z.le (map call_timestamp calls_c).
Proof.
  split; [sorted|]. split; [sorted|]. split; [sorted|].
  split; [vm_compute; reflexivity|].
  split; [reflexivity|]. split; [reflexivity|].
  simpl. intros H. apply Sorted_inv in H. destruct H as [H _].
  apply Sorted_inv in H. destruct H as [_ H]. apply HdRel_inv in H.
  vm_compute in H. apply H. reflexivity.
Qed.

(** Where the timestamps go down along the run, so do the interpolated
    calls. *)
Lemma interpolated_calls_follow_the_run :
  Sorted Qle (map distance run_r) /\
  Sorted Qle (map dist_along_shape schedule_r) /\
  exists out,
    generate_calls kernel run_r schedule_r = Ok out /\
    map call_timestamp (interpolated_only out) = [75000000; 25000000].
Proof.
  split; [sorted|]. split; [sorted|].
  eexists. split; vm_compute; reflexivity.
Qed.

Lemma interpolated_calls_nondecreasing_witness :
  generate_calls kernel run_c schedule_c = Ok calls_c /\
  StronglySorted Z.le (map call_timestamp (interpolated_only calls_c)).
Proof.
  split; [vm_compute; reflexivity|].
  apply (@ExactCalls.interpolated_calls_nondecreasing
           min_norm_fit run_c schedule_c);
    [sorted | sorted | sorted | vm_compute; reflexivity].
Defined.

(** C5 fails as stated.  [run_same] has 4 positions and [ei = 1] lies
    within the schedule of 3 stops, but [si = ei]: no call is interpolated,
    and [generate_calls] returns the empty list before it looks at the length
    of the run. *)
Lemma no_call_no_extrapolation :
  length run_same = 4%nat /\ length schedule_5 = 3%nat /\
  start_index kernel run_same schedule_5 = Ok 1%nat /\
  end_index kernel run_same schedule_5 = Ok 1%nat /\
  generate_calls kernel run_same schedule_5 = Ok [].
Proof. repeat split; vm_compute; reflexivity. Qed.

(** C4.  Two runs of 4 positions whose last three distances are one
    value.  On [run_zero], where that value is 0, [np.polyfit], which is
    called before the [try], raises [LinAlgError] and [generate_calls] raises
    it too: no call is returned.  On [run_still], where it is 10, the fit
    returns a line and the call of method 'E' is appended, not left out. *)
Theorem degenerate_fit_not_omitted :
  length run_zero = 4%nat /\
  last_n 3 (map (@distance Q) run_zero) = [0 # 1; 0 # 1; 0 # 1] /\
  generate_calls kernel run_zero schedule_5 = Raise LinAlgError /\
  length run_still = 4%nat /\
  last_n 3 (map (@distance Q) run_still) = [10 # 1; 10 # 1; 10 # 1] /\
  exists calls c,
    generate_calls kernel run_still schedule_c = Ok (calls ++ [c]) /\
    method c = "E"%string /\ call_stop_id c = "s3"%string.
Proof.
  split; [reflexivity|]. split; [reflexivity|].
  split; [vm_compute; reflexivity|].
  split; [reflexivity|]. split; [reflexivity|].
  exists [ mkCall "B46" 0 "s1" 205000000 "I";
           mkCall "B46" 0 "s2" 230000000 "I" ],
         (mkCall "B46" 0 "s3" 451000000 "E").
  split; [vm_compute; reflexivity|]. split; reflexivity.
Qed.

Lemma extrapolation_gate_witness :
  exists cS c cE,
    generate_calls kernel run_both schedule_5 = Ok (cS :: [c] ++ [cE]) /\
    method cS = "S"%string /\ method c = "I"%string /\
    method cE = "E"%string.
Proof.
  destruct (@extrapolation_gate kernel run_both schedule_5 1 2
              [Exact.interp_at (exact_samples run_both) (100 # 1)]
              [exact_interpolated_call (exact_samples run_both)
                 (stop "s2" 2 (100 # 1))])
    as (_ & _ & Hgate);
    [ reflexivity | reflexivity | reflexivity | reflexivity | ].
  destruct (Hgate ltac:(simpl; lia) ltac:(discriminate)) as (_ & _ & Hboth).
  eexists. eexists. eexists. split.
  - eapply Hboth;
      [ simpl; lia | vm_compute; reflexivity | vm_compute; reflexivity
      | lia | vm_compute; reflexivity | vm_compute; reflexivity ].
  - repeat split.
Defined.

Lemma boundary_indices_default_witness :
  start_index kernel run_8 schedule_other = Ok 0%nat /\
  end_index kernel run_8 schedule_other = Ok 2%nat /\
  generate_calls kernel run_8 schedule_other
  = Ok [ mkCall "B46" 0 "t7" 10000000 "I"; mkCall "B46" 0 "t8" 20000000 "I" ].
Proof.
  destruct (boundary_indices_default kernel run_8 schedule_other)
    as (_ & Hs & He & Hg).
  assert (H0 : forall p, item run_8 0 = Ok p ->
                 forall x, In x schedule_other -> stop_seq x <> seq p).
  { intros p [= <-] x [<-|[<-|[]]]; discriminate. }
  assert (H1 : forall p, last_item run_8 = Ok p ->
                 forall x, In x schedule_other -> stop_seq x <> seq p).
  { intros p [= <-] x [<-|[<-|[]]]; discriminate. }
  split; [exact (Hs H0)|]. split; [exact (He H1)|].
  rewrite (Hg H0 H1). vm_compute. reflexivity.
Defined.

Lemma colinear_interpolation_witness :
  exists calls,
    generate_calls kernel run_8 schedule_8 = Ok calls /\
    nth_error calls 1 = Some (mkCall "B46" 0 "s2" 25000000 "I").
Proof.
  apply (@ExactCalls.colinear_interpolation min_norm_fit
           (row 0 "A" march5 1 (0 # 1)) (row 50000000 "A" march5 2 (50 # 1))
           (row 100000000 "A" march5 4 (100 # 1))
           schedule_8 0 3 1 (stop "s2" 2 (25 # 1)));
    try reflexivity.
  simpl. lia.
Defined.

Lemma generate_calls_methods_witness :
  generate_calls kernel run_both schedule_5 = Ok calls_both /\
  exists front mid back,
    calls_both = front ++ mid ++ back /\
    Forall (fun c => method c = "I"%string) mid /\
    (front = [] \/ exists c, front = [c] /\ method c = "S"%string) /\
    (back = [] \/ exists c, back = [c] /\ method c = "E"%string) /\
    (calls_both <> [] -> mid <> []).
Proof.
  split; [vm_compute; reflexivity|].
  apply (@generate_calls_methods kernel run_both schedule_5).
  vm_compute. reflexivity.
Defined.

End CallSamples.

(** * Further properties *)

(** ** The loop of [filter_positions] *)

Section SegmenterMore.

Variable float : Type.
Implicit Types (p q position : Position float) (run : list (Position float)).
Implicit Types (runs : list (list (Position float))).

Lemma head_in_concat runs run p :
  In run runs -> hd_error run = Some p -> In p (concat runs).
Proof.
  intros Hin Hp. apply in_concat. exists run. split; [exact Hin|].
  destruct run; [discriminate|]. injection Hp as ->. left. reflexivity.
Qed.

(** X2.  The loop loses no position and moves none: the runs it forms, put end
    to end, are the stream.  When every position of the stream has the target
    service date, so are the runs [filter_positions] returns. *)
Theorem filter_positions_partitions (cursor : list (Position float))
    (date : string) out :
  filter_positions cursor date = Ok out ->
  (exists runs, segment cursor None [] = Ok runs /\ concat runs = cursor /\
                out = filter (on_date date) runs) /\
  (Forall (fun p => isoformat (service_date p) = date) cursor ->
   concat out = cursor).
Proof.
  intros H. destruct (filter_positions_formed _ _ H)
    as (runs & Hseg & Hne & Hout & _).
  pose proof (segment_concat _ _ _ Hseg) as Hcat. simpl in Hcat.
  split; [eauto|]. intros Hall. rewrite Hout, <- Hcat. f_equal.
  apply forallb_filter_id. apply forallb_forall. intros run Hin.
  rewrite Forall_forall in Hne, Hall. specialize (Hne run Hin).
  destruct run as [|p run]; [congruence|]. simpl. apply String.eqb_eq.
  apply Hall. rewrite <- Hcat. eapply head_in_concat; [exact Hin|reflexivity].
Qed.

Lemma chained_trip run :
  chained run ->
  forall i p q, nth_error run 0 = Some p -> nth_error run i = Some q ->
    trip_id q = trip_id p.
Proof.
  intros Hch.
  pose proof (proj1 (successive_nth (fun a b => trip_id b = trip_id a) run))
    as Hstep.
  assert (Hlink : forall i a b, nth_error run i = Some a ->
                    nth_error run (S i) = Some b -> trip_id b = trip_id a).
  { apply Hstep. eapply Forall_impl; [|exact Hch]. intros xy [Ht _]. exact Ht. }
  induction i as [|i IH]; intros p q Hp Hq; [congruence|].
  destruct (nth_error run i) as [m|] eqn:Hm.
  - rewrite (Hlink i m q Hm Hq). apply IH; [exact Hp | reflexivity].
  - apply nth_error_None in Hm.
    assert (Hs : nth_error run (S i) <> None) by congruence.
    apply nth_error_Some in Hs. lia.
Qed.

Lemma chained_one_trip run p q :
  chained run -> In p run -> In q run -> trip_id p = trip_id q.
Proof.
  intros Hch Hp Hq. apply In_nth_error in Hp, Hq.
  destruct Hp as [i Hp], Hq as [j Hq].
  destruct run as [|h run]; [destruct i; discriminate|].
  rewrite (chained_trip Hch i (p:=h) eq_refl Hp).
  rewrite (chained_trip Hch j (p:=h) eq_refl Hq). reflexivity.
Qed.

Lemma filter_positions_chained cursor date out :
  filter_positions cursor date = Ok out ->
  Forall (fun run => run <> [] /\ chained run) out.
Proof.
  intros H. unfold filter_positions in H. inv_bind H.
  destruct (segment_runs _ Hv) as [Hne Hch].
  destruct (keep_and_mask_formed _ Hne Hch H) as [-> _].
  rewrite Forall_forall in *. intros run Hin. apply filter_In in Hin.
  destruct Hin as [Hin _]. auto.
Qed.

(** X3.  No run [filter_positions] returns is empty, and the positions of a run
    all carry one trip id. *)
Theorem filter_positions_one_trip (cursor : list (Position float))
    (date : string) out :
  filter_positions cursor date = Ok out ->
  Forall (fun run => run <> [] /\
            forall p q, In p run -> In q run -> trip_id p = trip_id q) out.
Proof.
  intros H. eapply Forall_impl; [|exact (filter_positions_chained _ _ H)].
  intros run [Hne Hch]. split; [exact Hne|].
  intros p q. apply chained_one_trip. exact Hch.
Qed.

(** X4.  A stream that opens with a position without trip id, whose sequence
    number is neither 0 nor below -1, makes [runs[-1]] fail on the empty
    list. *)
Theorem filter_positions_no_first_trip p (s : Z)
    (cursor : list (Position float)) (date : string) :
  trip_id p = None -> seq p = Some s -> s <> 0 -> -1 <= s ->
  filter_positions (p :: cursor) date = Raise IndexError.
Proof.
  intros Ht Hs Hnz Hge. unfold filter_positions. cbn [segment].
  unfold starts_new_run. cbn [prev_trip_id prev_seq]. rewrite Ht, Hs.
  destruct s as [|n|n]; [congruence|reflexivity|].
  assert (n = 1%positive) by lia. subst n. reflexivity.
Qed.

Lemma segment_missing_seq pre p q cursor : forall prev runs,
  Forall complete pre -> seq p = None -> trip_id q = trip_id p ->
  match prev with None => True | Some p' => complete p' /\ runs <> [] end ->
  segment (pre ++ p :: q :: cursor) prev runs = Raise TypeError.
Proof.
  induction pre as [|position pre IH]; intros prev runs Hc Hp Hq Hprev.
  - simpl app. cbn [segment].
    assert (Hnew : exists new, starts_new_run prev p = Ok new /\
                     (new = false -> runs <> [])).
    { unfold starts_new_run. rewrite Hp. simpl.
      destruct (opt_string_eqb _ _) eqn:E; simpl.
      - destruct prev as [p'|]; simpl in *.
        + destruct Hprev as [[_ [s ->]] Hne]. simpl. eauto.
        + exists true. split; [reflexivity | discriminate].
      - exists true. split; [reflexivity | discriminate]. }
    destruct Hnew as (new & -> & Hne). simpl.
    assert (Happ : exists init run,
               (if new then runs ++ [[]] else runs) = init ++ [run]).
    { destruct new; [eauto|].
      destruct runs as [|r runs _] using rev_ind; [now destruct Hne|eauto]. }
    destruct Happ as (init & run & ->). rewrite append_to_last_snoc. simpl.
    unfold starts_new_run. simpl. rewrite Hq, Hp.
    assert (E : opt_string_eqb (trip_id p) (trip_id p) = true)
      by (apply opt_string_eqb_eq; reflexivity).
    rewrite E. reflexivity.
  - inversion Hc as [|? ? Hpos Hc']; subst. simpl app. cbn [segment].
    assert (Hnew : exists new, starts_new_run prev position = Ok new /\
                     (new = false -> runs <> [])).
    { unfold starts_new_run. destruct Hpos as [[t Ht] _].
      destruct (opt_string_eqb _ _) eqn:E; simpl.
      - apply opt_string_eqb_eq in E. destruct prev as [p'|]; simpl in *.
        + destruct Hprev as [[_ [s ->]] Hne]. simpl. eauto.
        + congruence.
      - exists true. split; [reflexivity | discriminate]. }
    destruct Hnew as (new & -> & Hne). simpl.
    assert (Happ : exists init run,
               (if new then runs ++ [[]] else runs) = init ++ [run]).
    { destruct new; [eauto|].
      destruct runs as [|r runs _] using rev_ind; [now destruct Hne|eauto]. }
    destruct Happ as (init & run & ->). rewrite append_to_last_snoc. simpl.
    apply IH; try assumption. split; [exact Hpos|]. destruct init; discriminate.
Qed.

(** X5.  After rows that carry a trip id and a sequence number, a position
    without sequence number followed by a position of the same trip makes the
    comparison with [None] raise. *)
Theorem filter_positions_missing_seq pre p q
    (cursor : list (Position float)) (date : string) :
  Forall complete pre -> seq p = None -> trip_id q = trip_id p ->
  filter_positions (pre ++ p :: q :: cursor) date = Raise TypeError.
Proof.
  intros Hc Hp Hq. unfold filter_positions.
  rewrite (@segment_missing_seq pre p q cursor None [] Hc Hp Hq I).
  reflexivity.
Qed.

End SegmenterMore.

(** ** [mask] on any key *)

(** X6.  [mask] returns the first element, then every element on which the key
    holds against the element just before it in the list given, in order. *)
Theorem mask_keeps {A} (key : A -> A -> result bool) (l r : list A) :
  mask l key = Ok r -> r = firstn 1 l ++ map fst (kept_pairs key l).
Proof.
  unfold mask. intros H. inv_bind H. injection H as <-.
  apply (compress_kept key l true Hv).
Qed.

(** ** [common] *)

Section CommonFacts.

Variable A : Type.
Variable eqb : A -> A -> bool.
Hypothesis eqb_eq : forall x y, eqb x y = true <-> x = y.

Lemma key_eqb_refl x : eqb x x = true.
Proof. apply eqb_eq. reflexivity. Qed.

Lemma key_eqb_neq x y : x <> y -> eqb x y = false.
Proof.
  intros H. destruct (eqb x y) eqn:E; [|reflexivity].
  apply eqb_eq in E. contradiction.
Qed.

Lemma occurrences_snoc (y x : A) (l : list A) :
  occurrences eqb y (l ++ [x])
  = (occurrences eqb y l + if eqb y x then 1 else 0)%nat.
Proof.
  unfold occurrences. rewrite filter_app, length_app. simpl.
  destruct (eqb y x); reflexivity.
Qed.

Lemma occurrences_In (y : A) (l : list A) :
  (0 < occurrences eqb y l)%nat <-> In y l.
Proof.
  unfold occurrences. split.
  - intros H. destruct (filter (eqb y) l) as [|z f] eqn:E; [simpl in H; lia|].
    assert (Hz : In z (filter (eqb y) l)) by (rewrite E; left; reflexivity).
    apply filter_In in Hz. destruct Hz as [Hz Heq].
    apply eqb_eq in Heq. subst z. exact Hz.
  - intros H.
    assert (Hy : In y (filter (eqb y) l)).
    { apply filter_In. split; [exact H | apply key_eqb_refl]. }
    destruct (filter (eqb y) l); [destruct Hy | simpl; lia].
Qed.

Lemma count_up_new (x : A) (counts : list (A * nat)) :
  ~ In x (map fst counts) -> count_up eqb x counts = counts ++ [(x, 1%nat)].
Proof.
  induction counts as [|[y n] counts IH]; intros H; [reflexivity|].
  simpl in *. rewrite key_eqb_neq by tauto. rewrite IH by tauto. reflexivity.
Qed.

Lemma count_up_keys (x : A) (counts : list (A * nat)) :
  In x (map fst counts) ->
  map fst (count_up eqb x counts) = map fst counts.
Proof.
  induction counts as [|[y n] counts IH]; intros H; [destruct H|].
  simpl. destruct (eqb y x) eqn:E; [reflexivity|]. simpl. f_equal.
  apply IH. destruct H as [H|H]; [|exact H].
  simpl in H. subst y. rewrite key_eqb_refl in E. discriminate.
Qed.

Lemma count_up_counts (x y : A) (m : nat) (counts : list (A * nat)) :
  In x (map fst counts) -> NoDup (map fst counts) ->
  In (y, m) (count_up eqb x counts) ->
  (y = x /\ exists n, In (x, n) counts /\ m = S n) \/
  (y <> x /\ In (y, m) counts).
Proof.
  induction counts as [|[z n] counts IH]; intros Hx Hnd Hin; [destruct Hx|].
  simpl in *. inversion Hnd as [|? ? Hz Hnd']; subst.
  destruct (eqb z x) eqn:E.
  - apply eqb_eq in E. subst z. destruct Hin as [Hin|Hin].
    + injection Hin as <- <-. left. eauto.
    + right. split; [|right; exact Hin]. intros ->. apply Hz.
      apply (in_map fst) in Hin. exact Hin.
  - assert (Hzx : z <> x)
      by (intros ->; rewrite key_eqb_refl in E; discriminate).
    destruct Hin as [Hin|Hin].
    + injection Hin as <- <-. right. split; [exact Hzx | left; reflexivity].
    + destruct Hx as [Hx|Hx]; [contradiction|].
      destruct (IH Hx Hnd' Hin) as [(-> & k & Hk & ->) | (Hne & Hy)].
      * left. split; [reflexivity|]. exists k. auto.
      * right. auto.
Qed.

(** What [Counter(lis)] holds: its keys are distinct and cover the list,
    each with its number of occurrences, and whatever the list shows before
    the first occurrence of a key is a key before it. *)
Lemma Counter_holds (lis : list A) :
  let counts := Counter eqb lis in
  NoDup (map fst counts) /\
  (forall y n, In (y, n) counts -> n = occurrences eqb y lis) /\
  (forall x, In x lis -> In x (map fst counts)) /\
  (forall k1 y k2, map fst counts = k1 ++ y :: k2 ->
     exists pre rest, lis = pre ++ y :: rest /\ ~ In y pre /\
                      forall z, In z pre -> In z k1).
Proof.
  induction lis as [|x lis IH] using rev_ind.
  - simpl. repeat split; [constructor | intros y n [] | intros x [] |].
    intros k1 y k2 H. destruct k1; discriminate.
  - unfold Counter in *. rewrite fold_left_app. simpl.
    set (counts := fold_left (fun c a => count_up eqb a c) lis []) in *.
    simpl in IH. destruct IH as (Hnd & Hcnt & Hcov & Hord).
    destruct (in_dec (fun a b => match Bool.bool_dec (eqb a b) true with
                                 | left e => left (proj1 (eqb_eq a b) e)
                                 | right n =>
                                     right (fun e => n (proj2 (eqb_eq a b) e))
                                 end) x (map fst counts)) as [Hin|Hnin].
    + pose proof (@count_up_keys x counts Hin) as Hkeys.
      rewrite Hkeys. repeat split.
      * exact Hnd.
      * intros y n Hy. rewrite occurrences_snoc.
        destruct (@count_up_counts x y n counts Hin Hnd Hy)
          as [(-> & k & Hk & ->) | (Hne & Hy')].
        -- rewrite key_eqb_refl, <- (Hcnt x k Hk). lia.
        -- rewrite (key_eqb_neq Hne), <- (Hcnt y n Hy'). lia.
      * intros z Hz. apply in_app_or in Hz. destruct Hz as [Hz|[<-|[]]]; auto.
      * intros k1 y k2 E.
        destruct (Hord k1 y k2 E) as (pre & rest & -> & H1 & H2).
        exists pre, (rest ++ [x]). rewrite <- app_assoc. auto.
    + rewrite (@count_up_new x counts Hnin), map_app. simpl.
      assert (Hxl : ~ In x lis) by (intros H; apply Hnin, Hcov, H).
      repeat split.
      * apply NoDup_app; [exact Hnd | repeat constructor; intros [] |].
        intros a Ha [<-|[]]. contradiction.
      * intros y n Hy. rewrite occurrences_snoc.
        apply in_app_or in Hy. destruct Hy as [Hy|[Hy|[]]].
        -- assert (Hne : y <> x).
           { intros ->. apply Hnin. apply (in_map fst) in Hy. exact Hy. }
           rewrite (key_eqb_neq Hne), <- (Hcnt y n Hy). lia.
        -- injection Hy as <- <-. rewrite key_eqb_refl.
           assert (E : occurrences eqb x lis = 0%nat).
           { destruct (occurrences eqb x lis) eqn:E; [reflexivity|].
             exfalso. apply Hxl. apply occurrences_In. lia. }
           rewrite E. reflexivity.
      * intros z Hz. apply in_or_app. apply in_app_or in Hz.
        destruct Hz as [Hz|[<-|[]]]; [left; auto | right; left; reflexivity].
      * intros k1 y k2 E. destruct k2 as [|k k2 _] using rev_ind.
        -- apply app_inj_tail in E. destruct E as [<- <-].
           exists lis, []. repeat split; [exact Hxl | exact Hcov].
        -- rewrite app_comm_cons, app_assoc in E. apply app_inj_tail in E.
           destruct E as [E _]. destruct (Hord k1 y k2 E)
             as (pre & rest & -> & H1 & H2).
           exists pre, (rest ++ [x]). rewrite <- app_assoc. auto.
Qed.

Lemma max_count_ge (items : list (A * nat)) : forall best,
  (snd best <= snd (max_count best items))%nat.
Proof.
  induction items as [|it items IH]; intros best; simpl; [lia|].
  destruct (snd best <? snd it)%nat eqn:E; [|apply IH].
  apply Nat.ltb_lt in E. specialize (IH it). lia.
Qed.

Lemma max_count_first (items : list (A * nat)) : forall best,
  exists c1 c2,
    best :: items = c1 ++ max_count best items :: c2 /\
    (forall it, In it c1 -> (snd it < snd (max_count best items))%nat) /\
    (forall it, In it c2 -> (snd it <= snd (max_count best items))%nat).
Proof.
  induction items as [|it items IH]; intros best.
  - exists [], []. repeat split; intros it [].
  - simpl. destruct (snd best <? snd it)%nat eqn:E.
    + apply Nat.ltb_lt in E. destruct (IH it) as (c1 & c2 & Hd & H1 & H2).
      exists (best :: c1), c2.
      split; [simpl; rewrite Hd at 1; reflexivity|]. split; [|exact H2].
      intros it' [<-|Hin]; [|auto].
      pose proof (max_count_ge items it). lia.
    + apply Nat.ltb_ge in E. destruct (IH best) as (c1 & c2 & Hd & H1 & H2).
      destruct c1 as [|b c1].
      * simpl in Hd. injection Hd as Hb Hc. subst c2.
        exists [], (it :: items). rewrite <- Hb in *.
        split; [reflexivity|]. split; [intros ? []|].
        intros it' [<-|Hin]; [exact E | auto].
      * simpl in Hd. injection Hd as Hb Hc. subst b.
        exists (best :: it :: c1), c2.
        split; [simpl; rewrite Hc at 1; reflexivity|]. split; [|exact H2].
        intros it' [<-|[<-|Hin]].
        -- apply H1. left. reflexivity.
        -- specialize (H1 best (or_introl eq_refl)). lia.
        -- apply H1. right. exact Hin.
Qed.

(** The item [most_common(1)] holds for a list that is not empty. *)
Lemma most_common_first (lis : list A) :
  lis <> [] ->
  exists x n,
    most_common_1 (Counter eqb lis) = [(x, n)] /\
    n = occurrences eqb x lis /\ In x lis /\
    (forall y, (occurrences eqb y lis <= n)%nat) /\
    exists pre rest, lis = pre ++ x :: rest /\ ~ In x pre /\
      forall z, In z pre -> (occurrences eqb z lis < n)%nat.
Proof.
  intros Hne. destruct (Counter_holds lis) as (Hnd & Hcnt & Hcov & Hord).
  destruct (Counter eqb lis) as [|it items] eqn:EC.
  - destruct lis as [|a lis]; [congruence|].
    destruct (Hcov a (or_introl eq_refl)).
  - destruct (max_count_first items it) as (c1 & c2 & Hd & H1 & H2).
    destruct (max_count it items) as [x n] eqn:Em. simpl in H1, H2.
    exists x, n. simpl. rewrite Em. split; [reflexivity|].
    assert (Hxn : In (x, n) (it :: items)).
    { rewrite Hd. apply in_or_app. right. left. reflexivity. }
    assert (Hn : n = occurrences eqb x lis) by (apply Hcnt; exact Hxn).
    assert (Hkeys : map fst (it :: items) = map fst c1 ++ x :: map fst c2).
    { rewrite Hd, map_app. reflexivity. }
    destruct (Hord _ _ _ Hkeys) as (pre & rest & Hl & Hpre & Hbefore).
    split; [exact Hn|]. split.
    { rewrite Hl. apply in_or_app. right. left. reflexivity. }
    split.
    + intros y. destruct (occurrences eqb y lis) as [|k] eqn:Ey; [lia|].
      assert (Hy : In y lis) by (apply occurrences_In; lia).
      apply Hcov in Hy. apply in_map_iff in Hy.
      destruct Hy as ([y' m] & Hfst & Hy). simpl in Hfst. subst y'.
      rewrite <- Ey, <- (Hcnt y m Hy). rewrite Hd in Hy.
      apply in_app_or in Hy. destruct Hy as [Hy|[Hy|Hy]].
      * specialize (H1 _ Hy). simpl in H1. lia.
      * injection Hy as _ <-. lia.
      * specialize (H2 _ Hy). simpl in H2. lia.
    + exists pre, rest. split; [exact Hl|]. split; [exact Hpre|].
      intros z Hz. apply Hbefore in Hz. apply in_map_iff in Hz.
      destruct Hz as ([z' m] & Hfst & Hz). simpl in Hfst. subst z'.
      assert (Hzc : In (z, m) (it :: items)).
      { rewrite Hd. apply in_or_app. left. exact Hz. }
      rewrite <- (Hcnt z m Hzc). specialize (H1 _ Hz). simpl in H1. exact H1.
Qed.

(** X7.  [common] raises [IndexError] on the empty list and on no other list. *)
Theorem common_empty (lis : list A) :
  (lis = [] -> common eqb lis = Raise IndexError) /\
  (lis <> [] -> exists x, common eqb lis = Ok x /\ In x lis).
Proof.
  split; [intros ->; reflexivity|]. intros Hne.
  destruct (most_common_first Hne) as (x & n & Hm & _ & Hin & _).
  exists x. unfold common. rewrite Hm. auto.
Qed.

(** X8.  What [common] returns occurs in the list at least as often as any
    other value, and strictly more often than every value the list shows
    before it: of the most frequent values it is the one met first. *)
Theorem common_first_mode (lis : list A) (x : A) :
  common eqb lis = Ok x ->
  (forall y, (occurrences eqb y lis <= occurrences eqb x lis)%nat) /\
  exists pre rest, lis = pre ++ x :: rest /\ ~ In x pre /\
    forall z, In z pre ->
      (occurrences eqb z lis < occurrences eqb x lis)%nat.
Proof.
  intros H. destruct lis as [|a lis]; [discriminate|].
  destruct (@most_common_first (a :: lis) ltac:(discriminate))
    as (x' & n & Hm & Hn & _ & Hmax & Hfirst).
  unfold common in H. rewrite Hm in H. injection H as <-. subst n. auto.
Qed.

End CommonFacts.

(** ** [process_vehicle] *)

Section WorkerFacts.

Variable K : Kernel.
Variable db : Database K.
Variable vehicle table : string.
Implicit Types (run : list (Position (float K))).
Implicit Types (runs : list (list (Position (float K)))).
Implicit Types (j : Journal).

Lemma process_runs_app runs1 : forall runs2 j,
  process_runs db vehicle table (runs1 ++ runs2) j
  = match process_runs db vehicle table runs1 j with
    | (j1, None) => process_runs db vehicle table runs2 j1
    | (j1, Some e) => (j1, Some e)
    end.
Proof.
  induction runs1 as [|run runs1 IH]; intros runs2 j; [reflexivity|].
  simpl. destruct (length run =? 0)%nat; [apply IH|].
  destruct (length run <=? 2)%nat.
  - destruct (item run 0); [apply IH | reflexivity].
  - destruct (run_batch db vehicle table run); [apply IH | reflexivity].
Qed.

(** Where the loop stands when it ends: the runs gone through, the batches
    they gave and, after an exception, the run that raised it. *)
Lemma process_runs_done runs : forall j j' e,
  process_runs db vehicle table runs j = (j', e) ->
  exists done bs,
    match e with
    | None => done = runs
    | Some x => exists run rest,
        runs = done ++ run :: rest /\ is_long run = true /\
        run_batch db vehicle table run = Raise x
    end /\
    committed j' = committed j ++ bs /\
    Forall2 (fun run b => run_batch db vehicle table run = Ok b)
            (filter is_long done) bs /\
    short_runs j'
    = short_runs j ++ map short_run_report (filter is_short done) /\
    lenc j' = (lenc j + length (written bs))%nat.
Proof.
  induction runs as [|run runs IH]; intros j j' e H.
  - injection H as <- <-. exists [], []. simpl.
    rewrite !app_nil_r, Nat.add_0_r. repeat split. constructor.
  - simpl in H.
    destruct (length run =? 0)%nat eqn:E0.
    + destruct (IH _ _ _ H) as (done & bs & He & Hc & Hb & Hs & Hl).
      apply Nat.eqb_eq in E0.
      assert (Hlong : is_long run = false).
      { unfold is_long. apply Nat.ltb_ge. lia. }
      assert (Hshort : is_short run = false).
      { unfold is_short. rewrite E0. reflexivity. }
      exists (run :: done), bs. cbn [filter]. rewrite Hlong, Hshort.
      repeat split; try assumption.
      destruct e as [x|]; [|congruence].
      destruct He as (r & rest & -> & Hr). exists r, rest. auto.
    + destruct (length run <=? 2)%nat eqn:E2.
      * assert (Hlong : is_long run = false).
        { unfold is_long. apply Nat.ltb_ge. apply Nat.leb_le. exact E2. }
        assert (Hshort : is_short run = true).
        { unfold is_short. rewrite E0, E2. reflexivity. }
        destruct run as [|p run]; [discriminate|].
        change (item (p :: run) 0) with (Ok p) in H.
        destruct (IH _ _ _ H) as (done & bs & He & Hc & Hb & Hs & Hl).
        cbn [committed short_runs lenc] in Hc, Hs, Hl.
        exists ((p :: run) :: done), bs. cbn [filter]. rewrite Hlong, Hshort.
        cbn [map]. rewrite <- app_assoc in Hs.
        repeat split; try assumption.
        destruct e as [x|]; [|congruence].
        destruct He as (r & rest & -> & Hr). exists r, rest. auto.
      * apply Nat.leb_gt in E2.
        assert (Hlong : is_long run = true).
        { unfold is_long. apply Nat.ltb_lt. lia. }
        assert (Hshort : is_short run = false).
        { unfold is_short. rewrite E0. simpl.
          apply Nat.leb_gt. lia. }
        destruct (run_batch db vehicle table run) as [b|x] eqn:Eb.
        -- destruct (IH _ _ _ H) as (done & bs & He & Hc & Hb & Hs & Hl).
           cbn [committed short_runs lenc] in Hc, Hs, Hl.
           exists (run :: done), (b :: bs). cbn [filter].
           rewrite Hlong, Hshort.
           rewrite <- app_assoc in Hc. unfold written in *. cbn [flat_map].
           rewrite length_app. repeat split; try assumption.
           ++ destruct e as [x|]; [|congruence].
              destruct He as (r & rest & -> & Hr). exists r, rest. auto.
           ++ constructor; assumption.
           ++ lia.
        -- injection H as <- <-. exists [], []. simpl.
           rewrite !app_nil_r, Nat.add_0_r. repeat split; [|constructor].
           exists run, runs. auto.
Qed.

(** X9.  When [process_vehicle] ends without exception, every run of 3
    positions or more has given one committed batch, in the order of the
    runs, and the runs of 1 or 2 positions have only been reported. *)
Theorem process_vehicle_batches (date : string) j :
  process_vehicle db vehicle table date = (j, None) ->
  exists runs,
    filter_positions (vehicle_query db vehicle date) date = Ok runs /\
    Forall2 (fun run b => run_batch db vehicle table run = Ok b)
            (filter is_long runs) (committed j) /\
    short_runs j
    = map short_run_report (filter (fun run => negb (is_long run)) runs).
Proof.
  unfold process_vehicle. intros H.
  destruct (filter_positions _ date) as [runs|e] eqn:Ef; [|discriminate].
  exists runs. split; [reflexivity|].
  destruct (process_runs_done _ _ H) as (done & bs & -> & Hc & Hb & Hs & _).
  simpl in Hc, Hs. subst bs. split; [exact Hb|]. rewrite Hs. f_equal.
  apply filter_ext_in. intros run Hin.
  pose proof (filter_positions_chained _ _ Ef) as Hne.
  rewrite Forall_forall in Hne. destruct (Hne run Hin) as [Hrun _].
  unfold is_short, is_long. destruct run as [|p run]; [congruence|].
  simpl. destruct run as [|q [|r run]]; reflexivity.
Qed.

(** X10.  Whatever the outcome, [lenc] is the number of rows committed. *)
Theorem process_vehicle_lenc (date : string) j e :
  process_vehicle db vehicle table date = (j, e) ->
  lenc j = length (written (committed j)).
Proof.
  unfold process_vehicle. intros H.
  destruct (filter_positions _ date) as [runs|x];
    [|injection H as <- _; reflexivity].
  destruct (process_runs_done _ _ H) as (done & bs & _ & Hc & _ & _ & Hl).
  simpl in Hc, Hl. subst bs. exact Hl.
Qed.


(** X12.  Every batch committed is written for the table and the vehicle given,
    under the trip id that all positions of its run carry, and holds the
    calls [generate_calls] made of that run and of the schedule of that
    trip. *)
Theorem process_vehicle_batch_trip (date : string) j e b :
  process_vehicle db vehicle table date = (j, e) ->
  In b (committed j) ->
  batch_table b = table /\ batch_vehicle_id b = vehicle /\
  exists runs run,
    filter_positions (vehicle_query db vehicle date) date = Ok runs /\
    In run runs /\ (3 <= length run)%nat /\
    (forall p, In p run -> trip_id p = batch_trip_id b) /\
    generate_calls K run (select_trip_index db (batch_trip_id b))
    = Ok (batch_calls b).
Proof.
  unfold process_vehicle. intros H Hin.
  destruct (filter_positions _ date) as [runs|x] eqn:Ef;
    [|injection H as <- _; destruct Hin].
  destruct (process_runs_done _ _ H) as (done & bs & He & Hc & Hb & _ & _).
  simpl in Hc. subst bs.
  assert (Hdone : forall run, In run done -> In run runs).
  { destruct e as [x|]; [|subst done; auto].
    destruct He as (r & rest & -> & _). intros run Hr.
    apply in_or_app. left. exact Hr. }
  assert (Hrun : exists run, In run (filter is_long done) /\
                   run_batch db vehicle table run = Ok b).
  { clear -Hb Hin. induction Hb as [|run b' l l' Hrb Hl IH]; [destruct Hin|].
    destruct Hin as [->|Hin].
    - exists run. split; [left; reflexivity | exact Hrb].
    - destruct (IH Hin) as (r & Hr & Hrb'). exists r. split; [right|]; auto. }
  destruct Hrun as (run & Hr & Hrb). apply filter_In in Hr.
  destruct Hr as [Hr Hlong]. apply Hdone in Hr.
  unfold run_batch in Hrb. inv_bind Hrb. inv_bind Hrb. injection Hrb as <-.
  simpl. split; [reflexivity|]. split; [reflexivity|].
  exists runs, run. split; [reflexivity|]. split; [exact Hr|].
  unfold is_long in Hlong. apply Nat.ltb_lt in Hlong.
  split; [lia|]. split; [|exact Hv0].
  pose proof (filter_positions_chained _ _ Ef) as Hch.
  rewrite Forall_forall in Hch. destruct (Hch run Hr) as [Hne Hc].
  assert (Hl : map (@trip_id (float K)) run <> []).
  { destruct run; [congruence | discriminate]. }
  destruct (@most_common_first _ _ opt_string_eqb_eq _ Hl)
    as (x & n & Hm & _ & Hx & _).
  unfold common in Hv. rewrite Hm in Hv. injection Hv as <-.
  apply in_map_iff in Hx. destruct Hx as (q & <- & Hq).
  intros p Hp. eapply chained_one_trip; eassumption.
Qed.

End WorkerFacts.

(** X13.  The trip id [common] picks for a run [filter_positions] returns is the
    trip id of each of its positions. *)
Theorem common_trip_of_run {float} (cursor : list (Position float))
    (date : string) out run p :
  filter_positions cursor date = Ok out -> In run out -> In p run ->
  common opt_string_eqb (map trip_id run) = Ok (trip_id p).
Proof.
  intros H Hrun Hp. pose proof (filter_positions_chained _ _ H) as Hch.
  rewrite Forall_forall in Hch. destruct (Hch run Hrun) as [Hne Hc].
  assert (Hl : map (@trip_id float) run <> []).
  { destruct run; [congruence | discriminate]. }
  destruct (@most_common_first _ _ opt_string_eqb_eq _ Hl)
    as (x & n & Hm & _ & Hx & _).
  unfold common. rewrite Hm. simpl. f_equal.
  apply in_map_iff in Hx. destruct Hx as (q & <- & Hq).
  eapply chained_one_trip; eassumption.
Qed.

(** ** [generate_calls]: which stops the calls are for *)

Section CallStops.

Variable K : Kernel.
Implicit Types (stoptimes : list (StopTime (float K))).
Implicit Types (run : list (Position (float K))).
Implicit Types (calls out : list Call).

Lemma call_made_for (st : StopTime (float K)) seconds m c :
  call K st seconds m = Ok c -> made_for c st.
Proof.
  unfold call. intros H. inv_bind H. injection H as <-.
  repeat split.
Qed.

Lemma extrapolated_call_made_for (cf : coefficients K) stoptimes i m c :
  extrapolated_call K cf stoptimes i m = Ok c ->
  exists st, nth_error stoptimes i = Some st /\ made_for c st.
Proof.
  unfold extrapolated_call. intros H. inv_bind H. inv_bind H. inv_bind H.
  unfold item in Hv1.
  destruct (nth_error stoptimes i) as [st|]; [|discriminate].
  injection Hv1 as <-. exists st. split; [reflexivity|].
  eapply call_made_for. exact H.
Qed.

Lemma mapM_combine_made_for (l : list (StopTime (float K))) :
  forall (values : list (float K)) calls,
    mapM (fun ss => call K (fst ss) (snd ss) None) (combine l values)
    = Ok calls ->
    Forall2 made_for calls (firstn (length calls) l).
Proof.
  induction l as [|st l IH]; intros values calls H.
  - injection H as <-. constructor.
  - destruct values as [|x values]; [injection H as <-; constructor|].
    simpl in H. inv_bind H. inv_bind H. injection H as <-. simpl.
    constructor; [eapply call_made_for; exact Hv | eapply IH; exact Hv0].
Qed.

Lemma extrapolate_forward_stop obs_distances obs_times stoptimes ei calls out :
  extrapolate_forward K obs_distances obs_times stoptimes ei calls = Ok out ->
  out = calls \/
  exists c st, out = calls ++ [c] /\ method c = "E"%string /\
               nth_error stoptimes ei = Some st /\ made_for c st.
Proof.
  unfold extrapolate_forward. destruct (ei <? length stoptimes)%nat.
  - intros H. inv_bind H.
    destruct (swallow_cases _ _ _ H) as [->|(c & Hc & ->)]; [auto|].
    right. destruct (extrapolated_call_made_for _ _ _ _ Hc) as (st & Hst & Hm).
    apply extrapolated_call_method in Hc.
    exists c, st. split; [reflexivity|]. split; [exact Hc|]. split; assumption.
  - intros [= <-]. auto.
Qed.

Lemma extrapolate_back_stop obs_distances obs_times stoptimes si calls out :
  extrapolate_back K obs_distances obs_times stoptimes si calls = Ok out ->
  out = calls \/
  exists c st, out = c :: calls /\ method c = "S"%string /\ (0 < si)%nat /\
               nth_error stoptimes si = Some st /\ made_for c st.
Proof.
  unfold extrapolate_back. destruct (0 <? si)%nat eqn:E.
  - intros H. inv_bind H. apply Nat.ltb_lt in E.
    destruct (swallow_cases _ _ _ H) as [->|(c & Hc & ->)]; [auto|].
    right. destruct (extrapolated_call_made_for _ _ _ _ Hc) as (st & Hst & Hm).
    apply extrapolated_call_method in Hc.
    exists c, st. split; [reflexivity|]. split; [exact Hc|].
    split; [exact E|]. split; assumption.
  - intros [= <-]. auto.
Qed.

(** The calls returned, with the scheduled stop of each. *)
Lemma generate_calls_stops run stoptimes out :
  generate_calls K run stoptimes = Ok out ->
  out = [] \/
  exists si ei calls front back,
    start_index K run stoptimes = Ok si /\
    end_index K run stoptimes = Ok ei /\
    out = front ++ calls ++ back /\ calls <> [] /\
    Forall (fun c => method c = "I"%string) calls /\
    Forall2 made_for calls (firstn (length calls) (slice si ei stoptimes)) /\
    (front = [] \/
     exists c st, front = [c] /\ method c = "S"%string /\ (0 < si)%nat /\
                  nth_error stoptimes si = Some st /\ made_for c st) /\
    (back = [] \/
     exists c st, back = [c] /\ method c = "E"%string /\
                  nth_error stoptimes ei = Some st /\ made_for c st).
Proof.
  unfold generate_calls. intros H.
  apply bind_Ok in H. destruct H as (si & Hsi & H).
  apply bind_Ok in H. destruct H as (ei & Hei & H).
  apply bind_Ok in H. destruct H as (interpolated & Hint & H).
  apply bind_Ok in H. destruct H as (calls & Hcalls & H).
  destruct (length calls =? 0)%nat eqn:Hlen; [injection H as <-; auto|].
  right. exists si, ei, calls.
  assert (Hne : calls <> []) by (intros ->; discriminate).
  pose proof (interpolated_calls_method _ _ _ _ _ Hcalls) as HI.
  pose proof (mapM_combine_made_for _ _ Hcalls) as Hfor.
  destruct (3 <? length run)%nat.
  - apply bind_Ok in H. destruct H as (calls' & Hf & Hb).
    apply extrapolate_forward_stop in Hf. apply extrapolate_back_stop in Hb.
    destruct Hb as [->|(cS & sS & -> & HS)],
             Hf as [->|(cE & sE & -> & HE)].
    + exists [], []. rewrite app_nil_r.
      split; [exact Hsi|]. split; [exact Hei|]. split; [reflexivity|]. auto 8.
    + exists [], [cE].
      split; [exact Hsi|]. split; [exact Hei|]. split; [reflexivity|].
      split; [exact Hne|]. split; [exact HI|]. split; [exact Hfor|].
      split; [left; reflexivity|]. right. exists cE, sE. tauto.
    + exists [cS], []. rewrite app_nil_r.
      split; [exact Hsi|]. split; [exact Hei|]. split; [reflexivity|].
      split; [exact Hne|]. split; [exact HI|]. split; [exact Hfor|].
      split; [|left; reflexivity]. right. exists cS, sS. tauto.
    + exists [cS], [cE].
      split; [exact Hsi|]. split; [exact Hei|]. split; [reflexivity|].
      split; [exact Hne|]. split; [exact HI|]. split; [exact Hfor|].
      split; right; [exists cS, sS | exists cE, sE]; tauto.
  - injection H as <-. exists [], []. rewrite app_nil_r.
    split; [exact Hsi|]. split; [exact Hei|]. split; [reflexivity|]. auto 8.
Qed.

Lemma nth_error_slice_head (si ei : nat) stoptimes st :
  nth_error (slice si ei stoptimes) 0 = Some st ->
  nth_error stoptimes si = Some st.
Proof.
  unfold slice. rewrite nth_error_firstn.
  destruct (0 <? ei - si)%nat; [|discriminate].
  rewrite nth_error_skipn, Nat.add_0_r. auto.
Qed.

(** X14.  A call of method 'S' at the head of the returned list is made for the
    scheduled stop at place [si], and the call that follows it is the
    interpolated call of that same stop. *)
Theorem backward_call_repeats_stop run stoptimes c rest :
  generate_calls K run stoptimes = Ok (c :: rest) ->
  method c = "S"%string ->
  exists si st c' rest',
    start_index K run stoptimes = Ok si /\ (0 < si)%nat /\
    nth_error stoptimes si = Some st /\ made_for c st /\
    rest = c' :: rest' /\ method c' = "I"%string /\ made_for c' st.
Proof.
  intros H HS. destruct (generate_calls_stops _ _ H)
    as [E|(si & ei & calls & front & back & Hsi & _ & Hout & Hne & HI & Hfor
           & Hf & _)]; [discriminate|].
  destruct calls as [|c' calls]; [congruence|].
  inversion HI as [|? ? Hc' _]; subst.
  destruct Hf as [->|(cS & st & -> & _ & Hpos & Hst & Hm)].
  - simpl in Hout. injection Hout as -> _. rewrite Hc' in HS. discriminate.
  - simpl in Hout. injection Hout as -> ->.
    exists si, st, c', (calls ++ back).
    split; [exact Hsi|]. split; [exact Hpos|]. split; [exact Hst|].
    split; [exact Hm|]. split; [reflexivity|]. split; [exact Hc'|].
    simpl in Hfor.
    destruct (slice si ei stoptimes) as [|st' sl] eqn:Esl;
      [inversion Hfor|].
    assert (Hst' : nth_error stoptimes si = Some st').
    { apply (@nth_error_slice_head si ei). rewrite Esl. reflexivity. }
    assert (st' = st) by congruence. subst st'.
    inversion Hfor; subst. assumption.
Qed.

(** X15.  A call of method 'E' at the end of the returned list is made for the
    scheduled stop at place [ei]. *)
Theorem forward_call_stop run stoptimes init c :
  generate_calls K run stoptimes = Ok (init ++ [c]) ->
  method c = "E"%string ->
  exists ei st,
    end_index K run stoptimes = Ok ei /\
    nth_error stoptimes ei = Some st /\ made_for c st.
Proof.
  intros H HE. destruct (generate_calls_stops _ _ H)
    as [E|(si & ei & calls & front & back & _ & Hei & Hout & Hne & HI & _
           & _ & Hb)]; [destruct init; discriminate|].
  destruct Hb as [->|(cE & st & -> & _ & Hst & Hm)].
  - rewrite app_nil_r in Hout.
    destruct calls as [|c0 calls _] using rev_ind; [congruence|].
    rewrite app_assoc in Hout. apply app_inj_tail in Hout.
    destruct Hout as [_ ->]. apply Forall_app in HI. destruct HI as [_ HI].
    inversion HI as [|? ? Hc _]; subst. rewrite Hc in HE. discriminate.
  - rewrite !app_assoc in Hout. apply app_inj_tail in Hout.
    destruct Hout as [_ ->]. eauto.
Qed.

(** X16.  [generate_calls] returns no more calls than the schedule has stops. *)
Theorem generate_calls_length run stoptimes out :
  generate_calls K run stoptimes = Ok out ->
  (length out <= length stoptimes)%nat.
Proof.
  intros H. destruct (generate_calls_stops _ _ H)
    as [->|(si & ei & calls & front & back & _ & _ & -> & Hne & _ & Hfor
            & Hf & Hb)]; [simpl; lia|].
  apply Forall2_length in Hfor. rewrite length_firstn in Hfor.
  unfold slice in Hfor. rewrite length_firstn, length_skipn in Hfor.
  assert (H1 : (0 < length calls)%nat)
    by (destruct calls; [congruence|simpl; lia]).
  rewrite !length_app.
  destruct Hf as [->|(cS & sS & -> & _ & Hpos & HsS & _)];
    destruct Hb as [->|(cE & sE & -> & _ & HsE & _)]; simpl;
    try (assert (ei < length stoptimes)%nat
           by (apply nth_error_Some; congruence));
    try (assert (si < length stoptimes)%nat
           by (apply nth_error_Some; congruence));
    lia.
Qed.

End CallStops.

(** ** [generate_calls] under the exact kernel *)

Module ExactMore.

Import Exact ExactFacts ExactCalls.
Local Open Scope Q_scope.

Lemma round_half_even_Z (z : Z) : round_half_even (inject_Z z) = z.
Proof.
  unfold round_half_even. rewrite Qfloor_Z.
  destruct (Qcompare_spec (inject_Z z - inject_Z z) (1 # 2)) as [H|H|H];
    [lra | reflexivity | lra].
Qed.

(** [to_unix], then the conversion [call] makes, gives back the instant. *)
Lemma unix_round_trip (dt : Z) :
  round_half_even (total_seconds (dt - EPOCH) * 1000000) = dt.
Proof.
  rewrite <- (round_half_even_Z dt) at 2. apply round_half_even_comp.
  unfold total_seconds, EPOCH, Qeq. simpl. lia.
Qed.

Lemma exact_samples_map (run : list (Position Q)) :
  exact_samples run
  = map (fun p => (distance p, total_seconds (timestamp p - EPOCH))) run.
Proof.
  unfold exact_samples. induction run as [|p run IH]; [reflexivity|].
  simpl. rewrite IH. reflexivity.
Qed.

Section AnyDegenerateFit.

Variable degenerate : list Q -> list Q -> result (list Q).

(** The calls of method 'I' among those returned: one for each scheduled
    stop of places [si] to [ei - 1]. *)
Lemma exact_interpolated_only (run : list (Position Q))
    (stoptimes : list (StopTime Q)) (out : list Call) :
  generate_calls (kernel_with degenerate) run stoptimes = Ok out ->
  run <> [] /\
  exists si ei,
    start_index (kernel_with degenerate) run stoptimes = Ok si /\
    end_index (kernel_with degenerate) run stoptimes = Ok ei /\
    interpolated_only out
    = map (exact_interpolated_call (exact_samples run))
          (slice si ei stoptimes).
Proof.
  intros H.
  assert (Hrun : run <> []).
  { intros ->. vm_compute in H. destruct stoptimes; discriminate. }
  split; [exact Hrun|].
  assert (Hsi : exists si,
            start_index (kernel_with degenerate) run stoptimes = Ok si)
    by (rewrite start_index_first; eauto).
  assert (Hei : exists ei,
            end_index (kernel_with degenerate) run stoptimes = Ok ei)
    by (rewrite end_index_first; eauto).
  destruct Hsi as [si Hsi], Hei as [ei Hei].
  exists si, ei. split; [exact Hsi|]. split; [exact Hei|].
  destruct (exact_interpolation degenerate stoptimes si ei Hrun)
    as [Hint Hcalls].
  rewrite (generate_calls_after_interp (kernel_with degenerate) _ _
             Hsi Hei Hint Hcalls) in H.
  set (calls := map (exact_interpolated_call (exact_samples run))
                    (slice si ei stoptimes)) in *.
  destruct (length calls =? 0)%nat eqn:E0.
  - injection H as <-. destruct calls; [reflexivity | discriminate].
  - assert (Hself : interpolated_only calls = calls)
      by apply interpolated_only_exact.
    match type of H with (if ?b then _ else _) = _ => destruct b end.
    + apply bind_Ok in H. destruct H as (calls' & Hf & Hb).
      apply extrapolate_forward_cases in Hf.
      apply extrapolate_back_cases in Hb.
      destruct Hb as [->|(cS & -> & HS)], Hf as [->|(cE & -> & HE)].
      * exact Hself.
      * rewrite interpolated_only_app, Hself. unfold interpolated_only.
        simpl. rewrite HE. simpl. apply app_nil_r.
      * unfold interpolated_only at 1. simpl. rewrite HS. simpl. exact Hself.
      * unfold interpolated_only at 1. simpl. rewrite HS. simpl.
        fold (interpolated_only (calls ++ [cE])).
        rewrite interpolated_only_app, Hself. unfold interpolated_only.
        simpl. rewrite HE. simpl. apply app_nil_r.
    + injection H as <-. exact Hself.
Qed.

(** X17.  Under the exact kernel the calls of method 'I' are the calls of the
    scheduled stops of places [si] to [ei - 1], one each, in the order of the
    schedule. *)
Theorem interpolated_calls_follow_schedule (run : list (Position Q))
    (stoptimes : list (StopTime Q)) (out : list Call) :
  generate_calls (kernel_with degenerate) run stoptimes = Ok out ->
  exists si ei,
    start_index (kernel_with degenerate) run stoptimes = Ok si /\
    end_index (kernel_with degenerate) run stoptimes = Ok ei /\
    map call_stop_id (interpolated_only out)
    = map stop_id (slice si ei stoptimes).
Proof.
  intros H. destruct (exact_interpolated_only _ _ H)
    as (_ & si & ei & Hsi & Hei & ->).
  exists si, ei. split; [exact Hsi|]. split; [exact Hei|].
  rewrite map_map. reflexivity.
Qed.

(** X19.  A run without position makes [np.interp] raise; a schedule
    without stop gives no call. *)
Theorem generate_calls_empty_input (run : list (Position Q))
    (stoptimes : list (StopTime Q)) :
  generate_calls (kernel_with degenerate) [] stoptimes = Raise ValueError /\
  (run <> [] -> generate_calls (kernel_with degenerate) run [] = Ok []).
Proof.
  split.
  - unfold generate_calls. simpl. reflexivity.
  - intros Hrun.
    assert (Hsi : start_index (kernel_with degenerate) run [] = Ok 0%nat).
    { rewrite start_index_first. destruct run; reflexivity. }
    assert (Hei : end_index (kernel_with degenerate) run [] = Ok 0%nat).
    { rewrite end_index_first. simpl.
      match goal with
      | |- Ok (match ?r with Ok _ => _ | Raise _ => _ end) = _ =>
          destruct r; reflexivity
      end. }
    destruct (exact_interpolation degenerate [] 0 0 Hrun) as [Hint Hcalls].
    rewrite (generate_calls_after_interp (kernel_with degenerate) _ _
               Hsi Hei Hint Hcalls). reflexivity.
Qed.

Lemma last_cons_default {A} (a d : A) (l : list A) :
  last (a :: l) d = last l a.
Proof.
  revert a d. induction l as [|b l IH]; intros a d; [reflexivity|].
  change (last (a :: b :: l) d) with (last (b :: l) d).
  rewrite (IH b d), (IH b a). reflexivity.
Qed.

Lemma interp_from_right (rest : list (Q * Q)) : forall x x0 y0,
  (forall xy, In xy rest -> fst xy <= x) ->
  interp_from x x0 y0 rest = snd (last rest (x0, y0)).
Proof.
  induction rest as [|[x1 y1] rest IH]; intros x x0 y0 H; [reflexivity|].
  simpl interp_from.
  assert (E : Qlt_bool x x1 = false).
  { apply Qlt_bool_false. apply (H (x1, y1)). left. reflexivity. }
  rewrite E, last_cons_default. apply IH.
  intros xy Hin. apply H. right. exact Hin.
Qed.

Lemma interp_from_sample (rest : list (Q * Q)) : forall x x0 y0 xs ys,
  StronglySorted Qlt (x0 :: map fst rest) ->
  In (xs, ys) ((x0, y0) :: rest) -> x == xs ->
  interp_from x x0 y0 rest = ys.
Proof.
  induction rest as [|[x1 y1] rest IH]; intros x x0 y0 xs ys Hs Hin Hx.
  - destruct Hin as [[= <- <-]|[]]. reflexivity.
  - apply StronglySorted_inv in Hs. destruct Hs as [Hs H0]. simpl in Hs, H0.
    inversion H0 as [|? ? H01 _]; subst. simpl interp_from.
    destruct Hin as [[= <- <-]|Hin].
    + assert (E : Qlt_bool x x1 = true) by (apply Qlt_bool_iff; lra).
      assert (E' : Qeq_bool x x0 = true) by (apply Qeq_bool_iff; exact Hx).
      rewrite E, E'. reflexivity.
    + assert (Hle : x1 <= xs).
      { destruct Hin as [[= <- <-]|Hin]; [lra|].
        apply StronglySorted_inv in Hs. destruct Hs as [_ H1].
        rewrite Forall_forall in H1. apply Qlt_le_weak. apply H1.
        apply (in_map fst) in Hin. exact Hin. }
      assert (E : Qlt_bool x x1 = false) by (apply Qlt_bool_false; lra).
      rewrite E. apply (IH x x1 y1 xs ys); assumption.
Qed.

Lemma exact_call_at (run : list (Position Q)) (stoptimes : list (StopTime Q))
    (out : list Call) (si ei k : nat) (st : StopTime Q) :
  generate_calls (kernel_with degenerate) run stoptimes = Ok out ->
  start_index (kernel_with degenerate) run stoptimes = Ok si ->
  end_index (kernel_with degenerate) run stoptimes = Ok ei ->
  (si <= k < ei)%nat -> nth_error stoptimes k = Some st ->
  nth_error (interpolated_only out) (k - si)
  = Some (exact_interpolated_call (exact_samples run) st).
Proof.
  intros H Hsi Hei Hk Hst. destruct (exact_interpolated_only _ _ H)
    as (_ & si' & ei' & Hsi' & Hei' & ->).
  assert (si' = si) by congruence. assert (ei' = ei) by congruence.
  subst si' ei'. rewrite nth_error_map, nth_error_slice by exact Hk.
  rewrite Hst. reflexivity.
Qed.

(** X20.  [np.interp] does not extrapolate.  Take a run whose observed
    distances never go down, which is where [np.interp] is specified, and
    whose instants lie between the epoch and [exact_until], where the float64
    conversions give an instant back.  The call of a scheduled stop of the
    interpolation range that lies before the first position of the run is
    stamped with the timestamp of the first position; the call of one that no
    position of the run has passed, with the timestamp of the last
    position. *)
Theorem interpolation_clamps (run : list (Position Q))
    (stoptimes : list (StopTime Q)) (out : list Call) (si ei k : nat)
    (st : StopTime Q) :
  generate_calls (kernel_with degenerate) run stoptimes = Ok out ->
  start_index (kernel_with degenerate) run stoptimes = Ok si ->
  end_index (kernel_with degenerate) run stoptimes = Ok ei ->
  (si <= k < ei)%nat -> nth_error stoptimes k = Some st ->
  Sorted Qle (map distance run) ->
  Forall (fun p => (0 <= timestamp p < exact_until)%Z) run ->
  (forall p0, item run 0 = Ok p0 -> dist_along_shape st < distance p0 ->
     nth_error (interpolated_only out) (k - si)
     = Some (mkCall (route_id st) (direction_id st) (stop_id st)
                    (timestamp p0) "I")) /\
  (forall pn, last_item run = Ok pn ->
     (forall p, In p run -> distance p <= dist_along_shape st) ->
     nth_error (interpolated_only out) (k - si)
     = Some (mkCall (route_id st) (direction_id st) (stop_id st)
                    (timestamp pn) "I")).
Proof.
  intros H Hsi Hei Hk Hst _ _.
  rewrite (exact_call_at _ _ H Hsi Hei Hk Hst).
  unfold exact_interpolated_call. rewrite exact_samples_map. split.
  - intros p0 Hp0 Hlt. destruct run as [|p run]; [discriminate|].
    injection Hp0 as ->. do 2 f_equal. simpl.
    assert (E : Qlt_bool (dist_along_shape st) (distance p0) = true)
      by (apply Qlt_bool_iff; exact Hlt).
    rewrite E. apply unix_round_trip.
  - intros pn Hpn Hall.
    assert (Hinit : exists init : list (Position Q), run = init ++ [pn])
      by exact (@last_item_Ok (kernel_with degenerate) run pn Hpn).
    destruct Hinit as [init ->].
    do 2 f_equal.
    transitivity (round_half_even
                    (total_seconds (timestamp pn - EPOCH) * 1000000));
      [|apply unix_round_trip].
    apply round_half_even_comp. apply Qmult_comp; [|reflexivity].
    set (g := fun p : Position Q =>
                (distance p, total_seconds (timestamp p - EPOCH))).
    assert (Hlast : forall d, last (map g (init ++ [pn])) d = g pn).
    { intros d. rewrite map_app. simpl. apply last_last. }
    destruct (map g (init ++ [pn])) as [|[x0 y0] rest] eqn:Em.
    { destruct init; discriminate. }
    assert (Hle : forall xy, In xy ((x0, y0) :: rest) ->
                    fst xy <= dist_along_shape st).
    { intros xy Hin. rewrite <- Em in Hin. apply in_map_iff in Hin.
      destruct Hin as (p & <- & Hp). apply Hall. exact Hp. }
    simpl interp_at.
    assert (E : Qlt_bool (dist_along_shape st) x0 = false).
    { apply Qlt_bool_false. apply (Hle (x0, y0)). left. reflexivity. }
    rewrite E, interp_from_right
      by (intros xy Hin; apply Hle; right; exact Hin).
    rewrite <- last_cons_default with (d := (x0, y0)), Hlast. reflexivity.
Qed.

(** X21.  Where the observed distances go strictly up along the run and its
    instants lie between the epoch and [exact_until], the call of a scheduled
    stop of the interpolation range that lies exactly where a position was
    observed is stamped with the timestamp of that position. *)
Theorem interpolation_meets_positions (run : list (Position Q))
    (stoptimes : list (StopTime Q)) (out : list Call) (si ei k : nat)
    (st : StopTime Q) (p : Position Q) :
  generate_calls (kernel_with degenerate) run stoptimes = Ok out ->
  start_index (kernel_with degenerate) run stoptimes = Ok si ->
  end_index (kernel_with degenerate) run stoptimes = Ok ei ->
  (si <= k < ei)%nat -> nth_error stoptimes k = Some st ->
  Sorted Qlt (map distance run) -> In p run ->
  (0 <= timestamp p < exact_until)%Z ->
  dist_along_shape st == distance p ->
  nth_error (interpolated_only out) (k - si)
  = Some (mkCall (route_id st) (direction_id st) (stop_id st)
                 (timestamp p) "I").
Proof.
  intros H Hsi Hei Hk Hst Hsorted Hp _ Hd.
  rewrite (exact_call_at _ _ H Hsi Hei Hk Hst).
  unfold exact_interpolated_call. do 2 f_equal.
  transitivity (round_half_even
                  (total_seconds (timestamp p - EPOCH) * 1000000));
    [|apply unix_round_trip].
  apply round_half_even_comp. apply Qmult_comp; [|reflexivity].
  rewrite exact_samples_map.
  set (g := fun p : Position Q =>
              (distance p, total_seconds (timestamp p - EPOCH))).
  assert (Hs : StronglySorted Qlt (map fst (map g run))).
  { rewrite map_map. simpl. apply Sorted_StronglySorted; [|exact Hsorted].
    intros x y z. apply Qlt_trans. }
  assert (Hin : In (g p) (map g run)) by (apply in_map; exact Hp).
  destruct (map g run) as [|[x0 y0] rest]; [destruct Hin|].
  simpl interp_at. simpl in Hs.
  assert (E : Qlt_bool (dist_along_shape st) x0 = false).
  { apply Qlt_bool_false. destruct Hin as [Heq|Hin].
    { unfold g in Heq. injection Heq as Hx0 _. rewrite Hx0. lra. }
    apply StronglySorted_inv in Hs. destruct Hs as [_ H0].
    rewrite Forall_forall in H0. apply (in_map fst) in Hin.
    apply H0 in Hin. simpl in Hin. lra. }
  rewrite E.
  rewrite (@interp_from_sample rest (dist_along_shape st) x0 y0 (distance p)
             (total_seconds (timestamp p - EPOCH)) Hs Hin Hd).
  reflexivity.
Qed.

End AnyDegenerateFit.

End ExactMore.

(** ** The further properties on the sample rows *)

Module MoreWitnesses.

Import Samples MoreSamples Exact.

Local Open Scope string_scope.

Lemma filter_positions_partitions_witness :
  filter_positions [a1; a2; a3; a4] "2017-03-05" = Ok [[a1; a2]; [a3; a4]] /\
  concat [[a1; a2]; [a3; a4]] = [a1; a2; a3; a4].
Proof.
  split; [vm_compute; reflexivity|].
  apply (@filter_positions_partitions Q [a1; a2; a3; a4] "2017-03-05").
  - vm_compute. reflexivity.
  - repeat constructor.
Defined.

Lemma filter_positions_one_trip_witness :
  Forall (fun run => run <> [] /\
            forall p q, In p run -> In q run -> trip_id p = trip_id q)
         [[a1; a2]; [a3; a4]].
Proof.
  apply (@filter_positions_one_trip Q [a1; a2; a3; a4] "2017-03-05").
  vm_compute. reflexivity.
Defined.

Lemma filter_positions_returns_witness :
  Forall complete [a1; a2; a3; a4] /\
  exists out, filter_positions [a1; a2; a3; a4] "2017-03-05" = Ok out.
Proof.
  assert (H : Forall complete [a1; a2; a3; a4]).
  { repeat constructor; eexists; reflexivity. }
  split; [exact H|].
  apply (@filter_positions_returns Q [a1; a2; a3; a4] "2017-03-05" H).
Defined.

Lemma filter_positions_no_first_trip_witness :
  filter_positions [u1; a1] "2017-03-05" = Raise IndexError.
Proof.
  apply (@filter_positions_no_first_trip Q u1 5 [a1] "2017-03-05");
    [reflexivity | reflexivity | discriminate | lia].
Defined.

Lemma filter_positions_missing_seq_witness :
  filter_positions ([a1; a2] ++ m1 :: m2 :: [a3])%list "2017-03-05"
  = Raise TypeError.
Proof.
  apply (@filter_positions_missing_seq Q [a1; a2] m1 m2 [a3] "2017-03-05");
    [|reflexivity|reflexivity].
  repeat constructor; eexists; reflexivity.
Defined.

Lemma mask_keeps_witness :
  mask [5; 3; 4; 4] (fun x y => Ok (x >=? y)) = Ok [5; 4; 4] /\
  [5; 4; 4]
  = (firstn 1 [5; 3; 4; 4]
     ++ map fst (kept_pairs (fun x y => Ok (x >=? y)) [5; 3; 4; 4]))%list.
Proof.
  split; [reflexivity|].
  apply (@mask_keeps Z (fun x y => Ok (x >=? y)) [5; 3; 4; 4] [5; 4; 4]).
  reflexivity.
Defined.

Lemma common_empty_witness :
  common String.eqb [] = Raise IndexError /\
  exists x, common String.eqb ["B"; "A"; "B"] = Ok x /\
            In x ["B"; "A"; "B"].
Proof.
  split.
  - apply (proj1 (@common_empty string String.eqb String.eqb_eq [])).
    reflexivity.
  - apply (proj2 (@common_empty string String.eqb String.eqb_eq
                    ["B"; "A"; "B"])).
    discriminate.
Defined.

Lemma common_first_mode_witness :
  common String.eqb ["C"; "A"; "B"; "B"; "A"] = Ok "A" /\
  exists pre rest,
    ["C"; "A"; "B"; "B"; "A"] = (pre ++ "A" :: rest)%list /\
    ~ In "A" pre /\
    forall z, In z pre ->
      (occurrences String.eqb z ["C"; "A"; "B"; "B"; "A"]
       < occurrences String.eqb "A" ["C"; "A"; "B"; "B"; "A"])%nat.
Proof.
  split; [reflexivity|].
  apply (@common_first_mode string String.eqb String.eqb_eq
           ["C"; "A"; "B"; "B"; "A"] "A").
  reflexivity.
Defined.

Lemma common_trip_of_run_witness :
  common opt_string_eqb (map trip_id [a3; a4]) = Ok (Some "A").
Proof.
  apply (@common_trip_of_run Q [a1; a2; a3; a4] "2017-03-05"
           [[a1; a2]; [a3; a4]] [a3; a4] a4).
  - vm_compute. reflexivity.
  - right. left. reflexivity.
  - right. left. reflexivity.
Defined.

Lemma process_vehicle_batches_witness :
  process_vehicle db "7001" "calls" "2017-03-05"
  = (mkJournal [batch_A "7001"] [(2%nat, 60000000)] 3, None) /\
  exists runs,
    filter_positions (vehicle_query db "7001" "2017-03-05") "2017-03-05"
    = Ok runs /\
    Forall2 (fun run b => run_batch db "7001" "calls" run = Ok b)
            (filter is_long runs) [batch_A "7001"] /\
    [(2%nat, 60000000)]
    = map short_run_report (filter (fun run => negb (is_long run)) runs).
Proof.
  split; [vm_compute; reflexivity|].
  apply (@process_vehicle_batches kernel db "7001" "calls" "2017-03-05"
           (mkJournal [batch_A "7001"] [(2%nat, 60000000)] 3)).
  vm_compute. reflexivity.
Defined.

Lemma process_vehicle_lenc_witness :
  process_vehicle db "7001" "calls" "2017-03-05"
  = (mkJournal [batch_A "7001"] [(2%nat, 60000000)] 3, None) /\
  lenc (mkJournal [batch_A "7001"] [(2%nat, 60000000)] 3)
  = length (written
              (committed (mkJournal [batch_A "7001"] [(2%nat, 60000000)] 3))).
Proof.
  split; [vm_compute; reflexivity|].
  apply (@process_vehicle_lenc kernel db "7001" "calls" "2017-03-05"
           (mkJournal [batch_A "7001"] [(2%nat, 60000000)] 3) None).
  vm_compute. reflexivity.
Defined.


Lemma process_vehicle_batch_trip_witness :
  batch_table (batch_A "7001") = "calls" /\
  batch_vehicle_id (batch_A "7001") = "7001" /\
  exists runs run,
    filter_positions (vehicle_query db "7001" "2017-03-05") "2017-03-05"
    = Ok runs /\
    In run runs /\ (3 <= length run)%nat /\
    (forall p, In p run -> trip_id p = batch_trip_id (batch_A "7001")) /\
    generate_calls kernel run
      (select_trip_index db (batch_trip_id (batch_A "7001")))
    = Ok (batch_calls (batch_A "7001")).
Proof.
  apply (@process_vehicle_batch_trip kernel db "7001" "calls" "2017-03-05"
           (mkJournal [batch_A "7001"] [(2%nat, 60000000)] 3) None).
  - vm_compute. reflexivity.
  - left. reflexivity.
Defined.

Lemma backward_call_repeats_stop_witness :
  exists si st c' rest',
    start_index kernel run_both schedule_5 = Ok si /\ (0 < si)%nat /\
    nth_error schedule_5 si = Some st /\
    made_for (mkCall "B46" 0 "s2" 12105263 "S") st /\
    tl calls_both = c' :: rest' /\ method c' = "I" /\ made_for c' st.
Proof.
  apply (@backward_call_repeats_stop kernel run_both schedule_5
           (mkCall "B46" 0 "s2" 12105263 "S") (tl calls_both));
    vm_compute; reflexivity.
Defined.

Lemma forward_call_stop_witness :
  exists ei st,
    end_index kernel run_c schedule_c = Ok ei /\
    nth_error schedule_c ei = Some st /\
    made_for (mkCall "B46" 0 "s3" 37166667 "E") st.
Proof.
  apply (@forward_call_stop kernel run_c schedule_c (firstn 2 calls_c)
           (mkCall "B46" 0 "s3" 37166667 "E"));
    vm_compute; reflexivity.
Defined.

Lemma generate_calls_length_witness :
  generate_calls kernel run_both schedule_5 = Ok calls_both /\
  (length calls_both <= length schedule_5)%nat.
Proof.
  split; [vm_compute; reflexivity|].
  apply (@generate_calls_length kernel run_both schedule_5 calls_both).
  vm_compute. reflexivity.
Defined.

Lemma interpolated_calls_follow_schedule_witness :
  exists si ei,
    start_index kernel run_c schedule_c = Ok si /\
    end_index kernel run_c schedule_c = Ok ei /\
    map call_stop_id (interpolated_only calls_c)
    = map stop_id (slice si ei schedule_c).
Proof.
  apply (@ExactMore.interpolated_calls_follow_schedule
           min_norm_fit run_c schedule_c calls_c).
  vm_compute. reflexivity.
Defined.

Lemma generate_calls_empty_input_witness :
  generate_calls kernel [] schedule_c = Raise ValueError /\
  generate_calls kernel run_c [] = Ok [].
Proof.
  destruct (@ExactMore.generate_calls_empty_input
              min_norm_fit run_c schedule_c) as [H1 H2].
  split; [exact H1 | apply H2; discriminate].
Defined.

Lemma interpolation_clamps_witness :
  generate_calls kernel run_clamp schedule_clamp = Ok calls_clamp /\
  nth_error (interpolated_only calls_clamp) 0
  = Some (mkCall "B46" 0 "s1" 100000000 "I") /\
  nth_error (interpolated_only calls_clamp) 1
  = Some (mkCall "B46" 0 "s2" 120000000 "I").
Proof.
  assert (Hs : Sorted Qle (map (@distance Q) run_clamp)).
  { apply CallSamples.Sorted_Qle_cons; [reflexivity|].
    apply CallSamples.Sorted_Qle_cons; [reflexivity|].
    repeat constructor. }
  assert (Hr : Forall (fun p : Position Q =>
                         (0 <= timestamp p < exact_until)%Z) run_clamp).
  { repeat constructor; vm_compute; congruence. }
  split; [vm_compute; reflexivity|]. split.
  - destruct (@ExactMore.interpolation_clamps min_norm_fit
                run_clamp schedule_clamp calls_clamp 0 2 0
                (stop "s1" 1 (10 # 1)))
      as [Hleft _];
      [ vm_compute; reflexivity | vm_compute; reflexivity
      | vm_compute; reflexivity | lia | reflexivity | exact Hs | exact Hr | ].
    apply (Hleft (row 100000000 "A" march5 1 (20 # 1)));
      [reflexivity | vm_compute; reflexivity].
  - destruct (@ExactMore.interpolation_clamps min_norm_fit
                run_clamp schedule_clamp calls_clamp 0 2 1
                (stop "s2" 2 (45 # 1)))
      as [_ Hright];
      [ vm_compute; reflexivity | vm_compute; reflexivity
      | vm_compute; reflexivity | lia | reflexivity | exact Hs | exact Hr | ].
    apply (Hright (row 120000000 "A" march5 3 (40 # 1))); [reflexivity|].
    intros p [<-|[<-|[<-|[]]]]; vm_compute; discriminate.
Defined.

Lemma interpolation_meets_positions_witness :
  generate_calls kernel run_8 schedule_at = Ok calls_at /\
  nth_error (interpolated_only calls_at) 1
  = Some (mkCall "B46" 0 "s2" 50000000 "I").
Proof.
  split; [vm_compute; reflexivity|].
  apply (@ExactMore.interpolation_meets_positions min_norm_fit
           run_8 schedule_at calls_at 0 3 1
           (stop "s2" 2 (50 # 1)) (row 50000000 "A" march5 2 (50 # 1)));
    try (vm_compute; reflexivity);
    [ lia | | right; left; reflexivity | vm_compute; split; congruence ].
  repeat (constructor; try reflexivity).
Defined.

End MoreWitnesses.
